(** * STPPG: shallow embedding of [stppg.py]

    Real numbers stand for the numpy floats.  Random draws are explicit
    inputs: an attempt of the sampler carries the Poisson count, the raw
    uniform variates of every dimension and the thinning variates.
    Python exceptions are [None] (kernels) or an explicit raised outcome
    (sampler); printing to stderr is an explicit log of messages
    (timestamps of [arrow.now()] are left out). *)

From Stdlib Require Import Reals Lra List Arith Lia Sorted Permutation.
Import ListNotations.
Open Scope R_scope.

(** ** numpy values: a scalar or a one-dimensional array *)

Inductive NpVal :=
| NScalar (a : R)
| NArr (l : list R).

(** [a + b] with numpy broadcasting of a scalar against an array. *)
Definition np_add (a b : NpVal) : NpVal :=
  match a, b with
  | NScalar x, NScalar y => NScalar (x + y)
  | NScalar x, NArr l => NArr (map (fun y => x + y) l)
  | NArr l, NScalar y => NArr (map (fun x => x + y) l)
  | NArr l1, NArr l2 => NArr (map (fun p => fst p + snd p) (combine l1 l2))
  end.

(** [c * v] for a scalar [c]. *)
Definition np_scale (c : R) (v : NpVal) : NpVal :=
  match v with
  | NScalar x => NScalar (c * x)
  | NArr l => NArr (map (fun x => c * x) l)
  end.

Definition np_sum (v : NpVal) : R :=
  match v with
  | NScalar x => x
  | NArr l => fold_right Rplus 0 l
  end.

(** Entry [j] of a value, a scalar being broadcast to every position. *)
Definition np_at (v : NpVal) (j : nat) : R :=
  match v with
  | NScalar x => x
  | NArr l => nth j l 0
  end.

(** ** Kernels *)

(** The differences a kernel computes for one historical event:
    [delta_t = t - his_t[j]], [delta_x], [delta_y] from [s - his_s[j]],
    and the historical location [his_s[j,0]], [his_s[j,1]]. *)
Record Delta := mkDelta {
  d_t : R; d_x : R; d_y : R; h_x : R; h_y : R
}.

(** [v[0], v[1]]; an IndexError when [v] has fewer than two coordinates. *)
Definition xy (v : list R) : option (R * R) :=
  match v with
  | x :: y :: _ => Some (x, y)
  | _ => None
  end.

Fixpoint deltas (t x y : R) (his : list (R * list R)) : option (list Delta) :=
  match his with
  | [] => Some []
  | (ht, hs) :: rest =>
      match xy hs, deltas t x y rest with
      | Some (hx, hy), Some ds => Some (mkDelta (t - ht) (x - hx) (y - hy) hx hy :: ds)
      | _, _ => None
      end
  end.

(** [delta_s = s - his_s; delta_t = t - his_t] (the caller passes the two
    columns of one array, so [his_t] and [his_s] have the same length). *)
Definition kernel_deltas (t : R) (s : list R) (his_t : list R) (his_s : list (list R))
  : option (list Delta) :=
  match xy s with
  | Some (x, y) => deltas t x y (combine his_t his_s)
  | None => None
  end.

Record StdDiffusionParams := mkStd {
  sd_C : R; sd_beta : R; sd_sigma_x : R; sd_sigma_y : R
}.

Record GaussianParams := mkGauss {
  g_mu_x : R; g_mu_y : R; g_sigma_x : R; g_sigma_y : R; g_rho : R; g_beta : R; g_C : R
}.

Record SpatialVariantParams := mkSV {
  f_mu_x : R -> R -> R; f_mu_y : R -> R -> R;
  f_sigma_x : R -> R -> R; f_sigma_y : R -> R -> R;
  f_rho : R -> R -> R; sv_beta : R; sv_C : R
}.

(** [StdDiffusionKernel.nu], one entry. *)
Definition std_val (k : StdDiffusionParams) (d : Delta) : R :=
  let '(mkStd C beta sigma_x sigma_y) := k in
  let '(mkDelta delta_t delta_x delta_y _ _) := d in
  exp (- beta * delta_t) *
  (C / (2 * PI * sigma_x * sigma_y * delta_t)) *
  exp ((- 1 / (2 * delta_t)) *
       ((Rsqr delta_x / Rsqr sigma_x) + (Rsqr delta_y / Rsqr sigma_y))).

(** The anisotropic Gaussian formula shared by [GaussianDiffusionKernel.nu]
    and [SpatialVariantGaussianDiffusionKernel.nu]. *)
Definition gaussian_formula (C beta mu_x mu_y sigma_x sigma_y rho : R)
  (delta_t delta_x delta_y : R) : R :=
  exp (- beta * delta_t) *
  (C / (2 * PI * sigma_x * sigma_y * delta_t * sqrt (1 - Rsqr rho))) *
  exp ((- 1 / (2 * delta_t * (1 - Rsqr rho))) *
       ((Rsqr (delta_x - mu_x) / Rsqr sigma_x) +
        (Rsqr (delta_y - mu_y) / Rsqr sigma_y) -
        (2 * rho * (delta_x - mu_x) * (delta_y - mu_y) / (sigma_x * sigma_y)))).

(** [GaussianDiffusionKernel.nu], one entry. *)
Definition gauss_val (g : GaussianParams) (d : Delta) : R :=
  gaussian_formula (g_C g) (g_beta g) (g_mu_x g) (g_mu_y g)
    (g_sigma_x g) (g_sigma_y g) (g_rho g) (d_t d) (d_x d) (d_y d).

(** [SpatialVariantGaussianDiffusionKernel.nu], one entry: the parameters
    are the functions evaluated at the historical location. *)
Definition sv_val (g : SpatialVariantParams) (d : Delta) : R :=
  let hx := h_x d in let hy := h_y d in
  gaussian_formula (sv_C g) (sv_beta g)
    (f_mu_x g hx hy) (f_mu_y g hx hy) (f_sigma_x g hx hy) (f_sigma_y g hx hy)
    (f_rho g hx hy) (d_t d) (d_x d) (d_y d).

Inductive Kernel :=
| StdDiffusionKernel (p : StdDiffusionParams)
| GaussianDiffusionKernel (g : GaussianParams)
| GaussianMixtureDiffusionKernel (n_comp : nat) (w : list R) (gdks : list GaussianParams)
| SpatialVariantGaussianDiffusionKernel (g : SpatialVariantParams)
| SpatialVariantGaussianMixtureDiffusionKernel
    (n_comp : nat) (w : list R) (gdks : list SpatialVariantParams).

(** A vectorised kernel: one entry per historical event. *)
Definition vectorised (f : Delta -> R) (t : R) (s : list R)
  (his_t : list R) (his_s : list (list R)) : option NpVal :=
  match kernel_deltas t s his_t his_s with
  | Some ds => Some (NArr (map f ds))
  | None => None
  end.

(** [nu = 0; for k in range(n_comp): nu += w[k] * gdks[k].nu(...)]. *)
Fixpoint mixture_loop {A : Type} (comp_nu : A -> option NpVal)
  (w : list R) (gdks : list A) (ks : list nat) (nu : NpVal) : option NpVal :=
  match ks with
  | [] => Some nu
  | k :: ks' =>
      match nth_error w k, nth_error gdks k with
      | Some wk, Some g =>
          match comp_nu g with
          | Some v => mixture_loop comp_nu w gdks ks' (np_add nu (np_scale wk v))
          | None => None
          end
      | _, _ => None
      end
  end.

Definition nu (k : Kernel) (t : R) (s : list R) (his_t : list R) (his_s : list (list R))
  : option NpVal :=
  match k with
  | StdDiffusionKernel p => vectorised (std_val p) t s his_t his_s
  | GaussianDiffusionKernel g => vectorised (gauss_val g) t s his_t his_s
  | GaussianMixtureDiffusionKernel n_comp w gdks =>
      mixture_loop (fun g => vectorised (gauss_val g) t s his_t his_s)
        w gdks (seq 0 n_comp) (NScalar 0)
  | SpatialVariantGaussianDiffusionKernel g => vectorised (sv_val g) t s his_t his_s
  | SpatialVariantGaussianMixtureDiffusionKernel n_comp w gdks =>
      mixture_loop (fun g => vectorised (sv_val g) t s his_t his_s)
        w gdks (seq 0 n_comp) (NScalar 0)
  end.

(** ** Kernel construction ([__init__])

    [None] is an exception raised by the constructor.  The plain kernels
    only store their arguments; the mixtures index the parameter lists
    ([mu_x[k]], ...) for [k] in [range(n_comp)]. *)

Definition StdDiffusionKernel_init (C beta sigma_x sigma_y : R) : option Kernel :=
  Some (StdDiffusionKernel (mkStd C beta sigma_x sigma_y)).

Definition GaussianDiffusionKernel_init (mu_x mu_y sigma_x sigma_y rho beta C : R)
  : option Kernel :=
  Some (GaussianDiffusionKernel (mkGauss mu_x mu_y sigma_x sigma_y rho beta C)).

(** [for k in range(n_comp): ... mu_x[k], mu_y[k], sigma_x[k], sigma_y[k], rho[k]]
    (an IndexError when a list is too short). *)
Fixpoint components {X Y : Type} (mk : X -> X -> X -> X -> X -> Y) (ks : list nat)
  (l1 l2 l3 l4 l5 : list X) : option (list Y) :=
  match ks with
  | [] => Some []
  | k :: ks' =>
      match nth_error l1 k, nth_error l2 k, nth_error l3 k, nth_error l4 k, nth_error l5 k,
            components mk ks' l1 l2 l3 l4 l5 with
      | Some a1, Some a2, Some a3, Some a4, Some a5, Some rest => Some (mk a1 a2 a3 a4 a5 :: rest)
      | _, _, _, _, _, _ => None
      end
  end.

Definition GaussianMixtureDiffusionKernel_init (n_comp : nat) (w : list R)
  (mu_x mu_y sigma_x sigma_y rho : list R) (beta C : R) : option Kernel :=
  match components (fun mx my sx sy r => mkGauss mx my sx sy r beta C)
          (seq 0 n_comp) mu_x mu_y sigma_x sigma_y rho with
  | Some gdks => Some (GaussianMixtureDiffusionKernel n_comp w gdks)
  | None => None
  end.

Definition SpatialVariantGaussianDiffusionKernel_init
  (f_mu_x f_mu_y f_sigma_x f_sigma_y f_rho : R -> R -> R) (beta C : R) : option Kernel :=
  Some (SpatialVariantGaussianDiffusionKernel
          (mkSV f_mu_x f_mu_y f_sigma_x f_sigma_y f_rho beta C)).

Definition SpatialVariantGaussianMixtureDiffusionKernel_init (n_comp : nat) (w : list R)
  (f_mu_x f_mu_y f_sigma_x f_sigma_y f_rho : list (R -> R -> R)) (beta C : R)
  : option Kernel :=
  match components (fun fmx fmy fsx fsy fr => mkSV fmx fmy fsx fsy fr beta C)
          (seq 0 n_comp) f_mu_x f_mu_y f_sigma_x f_sigma_y f_rho with
  | Some gdks => Some (SpatialVariantGaussianMixtureDiffusionKernel n_comp w gdks)
  | None => None
  end.

(** ** The intensity [HawkesLam] *)

Record HawkesLam := mkLam {
  lam_mu : R; lam_kernel : Kernel; lam_maximum : R
}.

(** [HawkesLam.value]; [None] when the kernel raises. *)
Definition value (lam : HawkesLam) (t : R) (his_t : list R) (s : list R)
  (his_s : list (list R)) : option R :=
  if Nat.ltb 0 (length his_t) then
    match nu (lam_kernel lam) t s his_t his_s with
    | Some v => Some (lam_mu lam + np_sum v)
    | None => None
    end
  else Some (lam_mu lam).

Definition upper_bound (lam : HawkesLam) : R := lam_maximum lam.

(** ** Homogeneous Poisson proposals *)

(** The random draws of one attempt of [generate]: the Poisson count [N]
    (mean [upper_bound * lebesgue_measure]), the raw variates in [0,1) of
    [np.random.uniform] for dimension [i] and sample [j], and the variate
    [D] drawn at thinning iteration [i]. *)
Record Attempt := mkAttempt {
  a_N : nat; a_U : nat -> nat -> R; a_D : nat -> R
}.

(** [np.random.uniform(lo, hi)] from its raw variate. *)
Definition uniform (lo hi u : R) : R := lo + (hi - lo) * u.

(** [homo_points[i, 0]] and [homo_points[i, 1:]]. *)
Definition time (p : list R) : R := hd 0 p.
Definition loc (p : list R) : list R := tl p.

(** [points[points[:, 0].argsort()]]: reordering by ascending time (the
    order numpy's argsort gives to equal times is left to it; the model
    keeps the one of insertion sort). *)
Fixpoint insert_by_time (p : list R) (l : list (list R)) : list (list R) :=
  match l with
  | [] => [p]
  | q :: l' => if Rle_dec (time p) (time q) then p :: q :: l' else q :: insert_by_time p l'
  end.

Fixpoint sort_by_time (l : list (list R)) : list (list R) :=
  match l with
  | [] => []
  | p :: l' => insert_by_time p (sort_by_time l')
  end.

Definition homogeneous_poisson_sampling (T : R * R) (S : list (R * R)) (a : Attempt)
  : list (list R) :=
  let S_ := T :: S in
  let points :=
    map (fun j =>
           map (fun i => let iv := nth i S_ (0, 0) in uniform (fst iv) (snd iv) (a_U a i j))
               (seq 0 (length S_)))
        (seq 0 (a_N a)) in
  sort_by_time points.

(** ** Thinning *)

(** Lines written to stderr. *)
Inductive Msg :=
| MsgSampled (n w : nat)            (* generate (n, w) samples from homogeneous ... *)
| MsgBound (lam_value lam_bar : R)  (* intensity %f is greater than upper bound %f. *)
| MsgChecked (i r : nat)            (* i raw samples have been checked. r retained. *)
| MsgThinned (r w : nat)            (* thining samples (r, w) based on Hawkes processes. *)
| MsgSequence (b : nat).            (* b-th sequence is generated. *)

(** [Running]: inside the loop; [ReturnedNone]: [return None] was executed;
    [Raised]: an exception (kernel IndexError, ZeroDivisionError in the
    progress monitor) propagates. *)
Inductive Status := Running | ReturnedNone | Raised.

Record TState := mkTState {
  retained : list (list R); tlog : list Msg; status : Status
}.

(** One iteration [i] of the loop over [homo_points] ([N] rows). *)
Definition thin_step (lam : HawkesLam) (verbose : bool) (N : nat) (Ds : nat -> R)
  (st : TState) (ip : nat * list R) : TState :=
  match status st with
  | Running =>
      let '(i, p) := ip in
      let t := time p in
      let s := loc p in
      let his_t := map time (retained st) in
      let his_s := map loc (retained st) in
      match value lam t his_t s his_s with
      | None => mkTState (retained st) (tlog st) Raised
      | Some lam_value =>
          let lam_bar := upper_bound lam in
          let D := Ds i in
          if Rlt_dec lam_bar lam_value then
            mkTState (retained st) (tlog st ++ [MsgBound lam_value lam_bar]) ReturnedNone
          else
            let rp := if Rle_dec (D * lam_bar) lam_value then retained st ++ [p]
                      else retained st in
            if (verbose && negb (Nat.eqb i 0))%bool then
              let m := Nat.div N 10 in
              if Nat.eqb m 0 then mkTState rp (tlog st) Raised
              else if Nat.eqb (Nat.modulo i m) 0
                   then mkTState rp (tlog st ++ [MsgChecked i (length rp)]) Running
                   else mkTState rp (tlog st) Running
            else mkTState rp (tlog st) Running
      end
  | _ => st
  end.

Inductive ThinOut := TNone | TSome (pts : list (list R)) | TRaise.

Definition thin_init (verbose : bool) (N w : nat) : TState :=
  mkTState [] (if verbose then [MsgSampled N w] else []) Running.

(** The state after the first [i] iterations. *)
Definition thin_state (lam : HawkesLam) (homo_points : list (list R)) (w : nat)
  (verbose : bool) (Ds : nat -> R) (i : nat) : TState :=
  let N := length homo_points in
  fold_left (thin_step lam verbose N Ds) (firstn i (combine (seq 0 N) homo_points))
    (thin_init verbose N w).

(** [_inhomogeneous_poisson_thinning]; [w] is [homo_points.shape[1]]. *)
Definition inhomogeneous_poisson_thinning (lam : HawkesLam) (homo_points : list (list R))
  (w : nat) (verbose : bool) (Ds : nat -> R) : list Msg * ThinOut :=
  let N := length homo_points in
  let st := fold_left (thin_step lam verbose N Ds) (combine (seq 0 N) homo_points)
              (thin_init verbose N w) in
  match status st with
  | Running =>
      (tlog st ++ (if verbose then [MsgThinned (length (retained st)) w] else []),
       TSome (retained st))
  | ReturnedNone => (tlog st, TNone)
  | Raised => (tlog st, TRaise)
  end.

(** ** [generate] *)

Inductive LoopOut :=
| LDone (max_len : nat) (points_list : list (list (list R))) (sizes : list nat)
| LRaise
| LFuel.

(** The [while b < batch_size] loop; attempt [k] uses the draws [att k].
    [fuel] bounds the number of iterations ([LFuel]: not finished yet). *)
Fixpoint gen_loop (lam : HawkesLam) (T : R * R) (S : list (R * R))
  (batch_size min_n_points : nat) (verbose : bool) (att : nat -> Attempt)
  (fuel k b max_len : nat) (points_list : list (list (list R))) (sizes : list nat)
  : list Msg * LoopOut :=
  match fuel with
  | O => ([], LFuel)
  | S fuel' =>
      if Nat.ltb b batch_size then
        let a := att k in
        let homo_points := homogeneous_poisson_sampling T S a in
        let '(lg, out) :=
          inhomogeneous_poisson_thinning lam homo_points (length (T :: S)) verbose (a_D a) in
        match out with
        | TRaise => (lg, LRaise)
        | TNone =>
            let '(lg', r) := gen_loop lam T S batch_size min_n_points verbose att
                               fuel' (Datatypes.S k) b max_len points_list sizes in
            (lg ++ lg', r)
        | TSome points =>
            if Nat.ltb (length points) min_n_points then
              let '(lg', r) := gen_loop lam T S batch_size min_n_points verbose att
                                 fuel' (Datatypes.S k) b max_len points_list sizes in
              (lg ++ lg', r)
            else
              let max_len' := if Nat.ltb max_len (length points) then length points
                              else max_len in
              let '(lg', r) := gen_loop lam T S batch_size min_n_points verbose att
                                 fuel' (Datatypes.S k) (Datatypes.S b) max_len'
                                 (points_list ++ [points]) (sizes ++ [length points]) in
              (lg ++ [MsgSequence (Datatypes.S b)] ++ lg', r)
        end
      else ([], LDone max_len points_list sizes)
  end.

(** [data[b, :n] = points_list[b]] into a row of [np.zeros((max_len, 3))]:
    an [(n, w)] array is copied when [w = 3], broadcast along the last axis
    when [w = 1], and a ValueError otherwise. *)
Definition assign_seq (w max_len : nat) (points : list (list R)) : option (list (list R)) :=
  let rows :=
    if Nat.eqb w 3 then Some points
    else if Nat.eqb w 1 then Some (map (fun p => [hd 0 p; hd 0 p; hd 0 p]) points)
    else None in
  match rows with
  | Some rs => Some (rs ++ repeat [0; 0; 0] (max_len - length points))
  | None => None
  end.

Fixpoint pack (w max_len : nat) (points_list : list (list (list R)))
  : option (list (list (list R))) :=
  match points_list with
  | [] => Some []
  | pts :: rest =>
      match assign_seq w max_len pts, pack w max_len rest with
      | Some d, Some ds => Some (d :: ds)
      | _, _ => None
      end
  end.

Inductive GenOut :=
| GOk (data : list (list (list R))) (sizes : list nat)
| GRaise
| GNoFuel.

Definition generate (lam : HawkesLam) (T : R * R) (S : list (R * R))
  (batch_size min_n_points : nat) (verbose : bool) (att : nat -> Attempt) (fuel : nat)
  : list Msg * GenOut :=
  let '(lg, r) := gen_loop lam T S batch_size min_n_points verbose att fuel 0 0 0 [] [] in
  match r with
  | LDone max_len points_list sizes =>
      match pack (length (T :: S)) max_len points_list with
      | Some data => (lg, GOk data sizes)
      | None => (lg, GRaise)
      end
  | LRaise => (lg, GRaise)
  | LFuel => (lg, GNoFuel)
  end.

(** [max(lengths)] (0 for an empty list). *)
Definition list_max_nat (l : list nat) : nat := fold_right Nat.max 0%nat l.

(** ** [plot_3d_pointprocess_lam_f]: the values it draws

    The figure itself (matplotlib) is not modelled: the function is
    followed up to the two images it shows, [evals] and [fvals], and
    [None] is an exception raised on the way.  [ngrid] is a Python int
    taken non-negative.  With [ngrid = 1], [unit_vol] divides by
    [(ngrid - 1) ** 3 = 0] and numpy yields non-finite values, which real
    numbers do not represent: the properties below take [ngrid >= 2]. *)

(** [np.linspace(start, stop, num)] in exact arithmetic ([num > 1]:
    [start + k * (stop - start) / (num - 1)], whose last entry is [stop]). *)
Definition linspace (start stop : R) (num : nat) : list R :=
  match num with
  | O => []
  | 1%nat => [start]
  | _ => map (fun k => start + INR k * ((stop - start) / INR (num - 1))) (seq 0 num)
  end.

(** [itertools.product( *ss)]: the first factor varies slowest. *)
Fixpoint product (ls : list (list R)) : list (list R) :=
  match ls with
  | [] => [[]]
  | l :: rest => flat_map (fun x => map (cons x) (product rest)) l
  end.

(** A list comprehension whose calls may raise. *)
Fixpoint map_opt {A B : Type} (f : A -> option B) (l : list A) : option (list B) :=
  match l with
  | [] => Some []
  | x :: l' =>
      match f x, map_opt f l' with
      | Some y, Some ys => Some (y :: ys)
      | _, _ => None
      end
  end.

Definition Rltb (a b : R) : bool := if Rlt_dec a b then true else false.

Definition plot_3d_pointprocess_lam_f (points : list (list R)) (lam : HawkesLam) (plot_ts : R)
  (T : R * R) (S : list (R * R)) (ngrid : nat) : option (list R * list R) :=
  let ss := product (map (fun S_k => linspace (fst S_k) (snd S_k) ngrid) S) in
  (* his_p = points[(points[:, 0] < plot_ts) * (points[:, 0] > 0)] *)
  let his_p := filter (fun p => andb (Rltb (time p) plot_ts) (Rltb 0 (time p))) points in
  let his_t := map time his_p in
  let his_s := map loc his_p in
  match map_opt (fun s => value lam plot_ts his_t s his_s) ss with
  | None => None
  | Some evals =>
      (* last_t = his_t[-1] if len(his_t) > 0 else 0. *)
      let last_t := last his_t 0 in
      let ts := linspace last_t plot_ts ngrid in
      let unit_vol :=
        fold_right Rmult 1 ((plot_ts - last_t) :: map (fun S_k => snd S_k - fst S_k) S) /
        (INR ngrid - 1) ^ 3 in
      match map_opt (fun ts_ => value lam (fst ts_) his_t (snd ts_) his_s)
              (list_prod (tl ts) ss) with
      | None => None
      | Some lamvals =>
          let integral := fold_right Rplus 0 lamvals * unit_vol in
          let fvals := map (fun e => e * exp (- integral)) evals in
          (* evals.reshape(ngrid, ngrid), then the tick labels read S[0] and S[1] *)
          if Nat.eqb (length evals) (ngrid * ngrid) then
            match nth_error S 0, nth_error S 1 with
            | Some _, Some _ => Some (evals, fvals)
            | _, _ => None
            end
          else None
      end
  end.

(** Deciding the real comparisons met while evaluating concrete runs. *)
Ltac decide_R :=
  repeat match goal with
  | |- context [Rlt_dec ?a ?b] => destruct (Rlt_dec a b); try lra
  | |- context [Rle_dec ?a ?b] => destruct (Rle_dec a b); try lra
  end.

(** ** Unfolding lemmas for [gen_loop] *)

Section GenLoop.
Variables (lam : HawkesLam) (T : R * R) (S : list (R * R))
  (batch_size min_n_points : nat) (verbose : bool) (att : nat -> Attempt).

Definition attempt_thin (k : nat) : list Msg * ThinOut :=
  inhomogeneous_poisson_thinning lam (homogeneous_poisson_sampling T S (att k))
    (length (T :: S)) verbose (a_D (att k)).

Lemma gen_loop_full fuel k b max_len points_list sizes :
  Nat.ltb b batch_size = false ->
  gen_loop lam T S batch_size min_n_points verbose att (Datatypes.S fuel) k b max_len
    points_list sizes = ([], LDone max_len points_list sizes).
Proof. intros H. simpl. rewrite H. reflexivity. Qed.

Lemma gen_loop_discard fuel k b max_len points_list sizes lg out :
  Nat.ltb b batch_size = true ->
  attempt_thin k = (lg, out) ->
  (out = TNone \/ exists points, out = TSome points /\ Nat.ltb (length points) min_n_points = true) ->
  gen_loop lam T S batch_size min_n_points verbose att (Datatypes.S fuel) k b max_len
    points_list sizes =
  let '(lg', r) := gen_loop lam T S batch_size min_n_points verbose att fuel
                     (Datatypes.S k) b max_len points_list sizes in (lg ++ lg', r).
Proof.
  intros Hb Ht Hout. unfold attempt_thin in Ht. cbn -[inhomogeneous_poisson_thinning homogeneous_poisson_sampling Nat.ltb length]. rewrite Hb, Ht.
  destruct Hout as [-> | (points & -> & Hl)]; [reflexivity |]. rewrite Hl. reflexivity.
Qed.

Lemma gen_loop_record fuel k b max_len points_list sizes lg points :
  Nat.ltb b batch_size = true ->
  attempt_thin k = (lg, TSome points) ->
  Nat.ltb (length points) min_n_points = false ->
  gen_loop lam T S batch_size min_n_points verbose att (Datatypes.S fuel) k b max_len
    points_list sizes =
  let max_len' := if Nat.ltb max_len (length points) then length points else max_len in
  let '(lg', r) := gen_loop lam T S batch_size min_n_points verbose att fuel
                     (Datatypes.S k) (Datatypes.S b) max_len'
                     (points_list ++ [points]) (sizes ++ [length points]) in
  (lg ++ [MsgSequence (Datatypes.S b)] ++ lg', r).
Proof.
  intros Hb Ht Hl. unfold attempt_thin in Ht. cbn -[inhomogeneous_poisson_thinning homogeneous_poisson_sampling Nat.ltb length]. rewrite Hb, Ht, Hl. reflexivity.
Qed.

Lemma gen_loop_raise fuel k b max_len points_list sizes lg :
  Nat.ltb b batch_size = true ->
  attempt_thin k = (lg, TRaise) ->
  gen_loop lam T S batch_size min_n_points verbose att (Datatypes.S fuel) k b max_len
    points_list sizes = (lg, LRaise).
Proof. intros Hb Ht. unfold attempt_thin in Ht. cbn -[inhomogeneous_poisson_thinning homogeneous_poisson_sampling Nat.ltb length]. rewrite Hb, Ht. reflexivity. Qed.

End GenLoop.

(** A concrete run: no spatial dimension, one proposal at time 0.5. *)
Definition lam_flat : HawkesLam := mkLam 1 (StdDiffusionKernel (mkStd 1 1 1 1)) 1.
Definition att_one (k : nat) : Attempt := mkAttempt 1 (fun _ _ => /2) (fun _ => /4).

Lemma attempt_thin_flat k :
  attempt_thin lam_flat (0, 1) [] false att_one k = ([], TSome [[uniform 0 1 (/2)]]).
Proof.
  unfold attempt_thin, inhomogeneous_poisson_thinning, homogeneous_poisson_sampling.
  simpl. unfold thin_step, value, upper_bound. simpl. decide_R; reflexivity.
Qed.

Example generate_flat :
  generate lam_flat (0, 1) [] 1 1 false att_one 5 =
  ([MsgSequence 1], GOk [[[uniform 0 1 (/2); uniform 0 1 (/2); uniform 0 1 (/2)]]] [1%nat]).
Proof.
  unfold generate.
  rewrite (gen_loop_record lam_flat (0, 1) [] 1 1 false att_one 4 0 0 0 [] [] []
             [[uniform 0 1 (/2)]] eq_refl (attempt_thin_flat 0) eq_refl).
  cbv zeta. rewrite gen_loop_full by reflexivity. reflexivity.
Qed.

(** * Kernel properties *)

(** Validity of kernel parameters: positive amplitude and spreads,
    [|rho| < 1], non-negative mixture weights. *)
Definition gauss_valid (g : GaussianParams) : Prop :=
  0 < g_C g /\ 0 < g_sigma_x g /\ 0 < g_sigma_y g /\ Rabs (g_rho g) < 1.

Definition sv_valid (g : SpatialVariantParams) : Prop :=
  0 < sv_C g /\
  forall x y, 0 < f_sigma_x g x y /\ 0 < f_sigma_y g x y /\ Rabs (f_rho g x y) < 1.

Definition kernel_valid (k : Kernel) : Prop :=
  match k with
  | StdDiffusionKernel p => 0 < sd_C p /\ 0 < sd_sigma_x p /\ 0 < sd_sigma_y p
  | GaussianDiffusionKernel g => gauss_valid g
  | GaussianMixtureDiffusionKernel _ w gdks => Forall gauss_valid gdks /\ Forall (Rle 0) w
  | SpatialVariantGaussianDiffusionKernel g => sv_valid g
  | SpatialVariantGaussianMixtureDiffusionKernel _ w gdks =>
      Forall sv_valid gdks /\ Forall (Rle 0) w
  end.

(** Entry [j] of an optional kernel output (0 when the kernel raised). *)
Definition np_at_opt (o : option NpVal) (j : nat) : R :=
  match o with
  | Some v => np_at v j
  | None => 0
  end.

Definition default_gauss : GaussianParams := mkGauss 0 0 1 1 0 1 1.

Lemma deltas_In t x y his ds :
  deltas t x y his = Some ds ->
  forall d, In d ds -> exists ht hs, In (ht, hs) his /\ d_t d = t - ht.
Proof.
  revert ds. induction his as [| [ht hs] rest IH]; simpl; intros ds H d Hd.
  - injection H as <-. destruct Hd.
  - destruct (xy hs) as [[hx hy] |]; [| discriminate].
    destruct (deltas t x y rest) as [ds' |] eqn:E; [| discriminate].
    injection H as <-. destruct Hd as [<- | Hd].
    + exists ht, hs. split; [left; reflexivity | reflexivity].
    + destruct (IH ds' eq_refl d Hd) as (ht' & hs' & Hin & Heq).
      exists ht', hs'. split; [right; exact Hin | exact Heq].
Qed.

Lemma kernel_deltas_dt t s his_t his_s ds :
  kernel_deltas t s his_t his_s = Some ds ->
  forall d, In d ds -> exists ht, In ht his_t /\ d_t d = t - ht.
Proof.
  unfold kernel_deltas. destruct (xy s) as [[x y] |]; [| discriminate].
  intros H d Hd. destruct (deltas_In _ _ _ _ _ H d Hd) as (ht & hs & Hin & Heq).
  exists ht. split; [| exact Heq]. apply (in_combine_l _ _ _ _ Hin).
Qed.

Lemma one_minus_rho2_pos rho : Rabs rho < 1 -> 0 < 1 - Rsqr rho.
Proof.
  intros H. unfold Rsqr. destruct (Rabs_def2 _ _ H) as [H1 H2].
  replace (1 - rho * rho) with ((1 - rho) * (1 + rho)) by ring.
  apply Rmult_lt_0_compat; lra.
Qed.

Lemma gaussian_formula_nonneg C beta mu_x mu_y sigma_x sigma_y rho dt dx dy :
  0 < C -> 0 < sigma_x -> 0 < sigma_y -> Rabs rho < 1 -> 0 < dt ->
  0 <= gaussian_formula C beta mu_x mu_y sigma_x sigma_y rho dt dx dy.
Proof.
  intros HC Hx Hy Hr Ht. unfold gaussian_formula.
  pose proof (sqrt_lt_R0 _ (one_minus_rho2_pos _ Hr)) as Hs.
  pose proof PI_RGT_0 as Hpi.
  apply Rmult_le_pos; [apply Rmult_le_pos |].
  - left. apply exp_pos.
  - unfold Rdiv. left. apply Rmult_lt_0_compat; [exact HC |].
    apply Rinv_0_lt_compat.
    apply Rmult_lt_0_compat; [| exact Hs]. apply Rmult_lt_0_compat; [| exact Ht].
    apply Rmult_lt_0_compat; [| exact Hy]. apply Rmult_lt_0_compat; [| exact Hx].
    apply Rmult_lt_0_compat; lra.
  - left. apply exp_pos.
Qed.

Lemma std_val_nonneg p d :
  0 < sd_C p -> 0 < sd_sigma_x p -> 0 < sd_sigma_y p -> 0 < d_t d -> 0 <= std_val p d.
Proof.
  destruct p as [C beta sx sy], d as [dt dx dy hx hy]; simpl; intros HC Hx Hy Ht.
  pose proof PI_RGT_0 as Hpi.
  apply Rmult_le_pos; [apply Rmult_le_pos |].
  - left. apply exp_pos.
  - unfold Rdiv. left. apply Rmult_lt_0_compat; [exact HC |].
    apply Rinv_0_lt_compat. apply Rmult_lt_0_compat; [| exact Ht].
    apply Rmult_lt_0_compat; [| exact Hy]. apply Rmult_lt_0_compat; [| exact Hx].
    apply Rmult_lt_0_compat; lra.
  - left. apply exp_pos.
Qed.

Lemma nth_map0 (f : R -> R) (l : list R) (j : nat) :
  f 0 = 0 -> nth j (map f l) 0 = f (nth j l 0).
Proof.
  intros H0. revert j. induction l as [| x l IH]; intros [| j]; simpl; auto.
Qed.

Lemma nth_combine_add (a b : list R) (j : nat) :
  length a = length b ->
  nth j (map (fun p => fst p + snd p) (combine a b)) 0 = nth j a 0 + nth j b 0.
Proof.
  revert b j. induction a as [| x a IH]; intros [| y b] j Hl; simpl in *;
    try discriminate.
  - destruct j; ring.
  - destruct j; [reflexivity | apply IH; lia].
Qed.

(** One iteration of the mixture loop on an accumulator that is the
    initial scalar 0 or an array with one entry per historical event. *)
Lemma mixture_add_at (acc : NpVal) (wk : R) (l : list R) (j : nat) :
  (acc = NScalar 0 \/ exists a, acc = NArr a /\ length a = length l) ->
  np_at (np_add acc (np_scale wk (NArr l))) j = np_at acc j + wk * nth j l 0 /\
  exists a', np_add acc (np_scale wk (NArr l)) = NArr a' /\ length a' = length l.
Proof.
  intros [-> | (a & -> & Ha)]; simpl.
  - split.
    + rewrite map_map. rewrite (nth_map0 (fun x => 0 + wk * x)) by ring. ring.
    + eexists. split; [reflexivity |]. rewrite !length_map. reflexivity.
  - split.
    + rewrite nth_combine_add by (rewrite length_map; exact Ha).
      rewrite (nth_map0 (fun x => wk * x)) by ring. reflexivity.
    + eexists. split; [reflexivity |].
      rewrite length_map, length_combine, length_map. lia.
Qed.

Lemma mixture_loop_at {A : Type} (f : A -> Delta -> R) (ds : list Delta)
  (w : list R) (gdks : list A) (ks : list nat) (acc v : NpVal) :
  (acc = NScalar 0 \/ exists a, acc = NArr a /\ length a = length ds) ->
  mixture_loop (fun g => Some (NArr (map (f g) ds))) w gdks ks acc = Some v ->
  (forall k, In k ks -> exists wk g, nth_error w k = Some wk /\ nth_error gdks k = Some g) /\
  forall j, np_at v j =
    np_at acc j +
    fold_right Rplus 0
      (map (fun k => nth k w 0 *
                     match nth_error gdks k with
                     | Some g => nth j (map (f g) ds) 0
                     | None => 0
                     end) ks).
Proof.
  revert acc. induction ks as [| k ks IH]; simpl; intros acc Hacc H.
  - injection H as <-. split; [intros k [] | intros j; ring].
  - destruct (nth_error w k) as [wk |] eqn:Ew; [| discriminate].
    destruct (nth_error gdks k) as [g |] eqn:Eg; [| discriminate].
    assert (Hl : length (map (f g) ds) = length ds) by apply length_map.
    assert (Hacc' : acc = NScalar 0 \/ exists a, acc = NArr a /\ length a = length (map (f g) ds))
      by (rewrite Hl; exact Hacc).
    destruct (proj2 (mixture_add_at acc wk _ 0 Hacc')) as (a' & Ha' & Hla').
    destruct (IH _ (or_intror (ex_intro _ a' (conj Ha' (eq_trans Hla' Hl)))) H)
      as [Hin Hj].
    split.
    + intros k' [<- | Hk']; [exists wk, g; auto | apply Hin, Hk'].
    + intros j. rewrite Hj, (proj1 (mixture_add_at acc wk _ j Hacc')).
      rewrite (nth_error_nth w k 0 Ew). ring.
Qed.

Lemma mixture_loop_none {A : Type} (w : list R) (gdks : list A) ks acc v :
  mixture_loop (fun _ : A => None) w gdks ks acc = Some v -> ks = [] /\ v = acc.
Proof.
  destruct ks as [| k ks]; simpl.
  - intros H. injection H as <-. auto.
  - destruct (nth_error w k), (nth_error gdks k); discriminate.
Qed.

Lemma components_some {X Y : Type} (mk : X -> X -> X -> X -> X -> Y) (n a : nat)
  (l1 l2 l3 l4 l5 : list X) :
  components mk (seq a n) l1 l2 l3 l4 l5 <> None <->
  (forall k, (a <= k < a + n)%nat ->
     (k < length l1 /\ k < length l2 /\ k < length l3 /\ k < length l4 /\ k < length l5)%nat).
Proof.
  revert a. induction n as [| n IH]; intros a; simpl.
  - split; [intros _ k Hk; lia | intros _; discriminate].
  - specialize (IH (S a)).
    destruct (nth_error l1 a) eqn:E1; destruct (nth_error l2 a) eqn:E2;
    destruct (nth_error l3 a) eqn:E3; destruct (nth_error l4 a) eqn:E4;
    destruct (nth_error l5 a) eqn:E5;
    destruct (components mk (seq (S a) n) l1 l2 l3 l4 l5) eqn:E6;
    (split; [intros H | intros H]);
    try (intros Hc; discriminate Hc);
    try (exfalso; apply H; reflexivity);
    try (assert (Ha : (a <= a < a + S n)%nat) by lia;
         destruct (H a Ha) as (H1 & H2 & H3 & H4 & H5);
         exfalso;
         first [ apply nth_error_None in E1; lia | apply nth_error_None in E2; lia
               | apply nth_error_None in E3; lia | apply nth_error_None in E4; lia
               | apply nth_error_None in E5; lia ]).
    + intros k Hk. destruct (Nat.eq_dec k a) as [-> | Hne].
      * repeat split; apply nth_error_Some; congruence.
      * apply (proj1 IH); [congruence | lia].
    + exfalso. apply (proj2 IH); [| reflexivity]. intros k Hk. apply H. lia.
Qed.

Lemma nth_map_nonneg (f : Delta -> R) (ds : list Delta) (j : nat) :
  (forall d, In d ds -> 0 <= f d) -> 0 <= nth j (map f ds) 0.
Proof.
  revert j. induction ds as [| d ds IH]; intros [| j] H; simpl; try lra.
  - apply H. left. reflexivity.
  - apply IH. intros d' Hd'. apply H. right. exact Hd'.
Qed.

Lemma sum_nonneg (g : nat -> R) (ks : list nat) :
  (forall k, In k ks -> 0 <= g k) -> 0 <= fold_right Rplus 0 (map g ks).
Proof.
  induction ks as [| k ks IH]; simpl; intros H; [lra |].
  apply Rplus_le_le_0_compat; [apply H; left; reflexivity |].
  apply IH. intros k' Hk'. apply H. right. exact Hk'.
Qed.

Lemma nth_weight_nonneg (w : list R) (k : nat) : Forall (Rle 0) w -> 0 <= nth k w 0.
Proof.
  intros H. destruct (Nat.lt_ge_cases k (length w)) as [Hk | Hk].
  - rewrite Forall_forall in H. apply H. apply nth_In. exact Hk.
  - rewrite nth_overflow by exact Hk. lra.
Qed.

(** Non-negativity of a mixture output from that of its components. *)
Lemma mixture_nonneg {A : Type} (valid : A -> Prop) (f : A -> Delta -> R)
  (t : R) (s : list R) (his_t : list R) (his_s : list (list R))
  (w : list R) (gdks : list A) (K : nat) (v : NpVal) :
  Forall valid gdks -> Forall (Rle 0) w ->
  (forall g ds, valid g -> kernel_deltas t s his_t his_s = Some ds ->
     forall d, In d ds -> 0 <= f g d) ->
  mixture_loop (fun g => vectorised (f g) t s his_t his_s) w gdks (seq 0 K) (NScalar 0)
    = Some v ->
  forall j, 0 <= np_at v j.
Proof.
  intros Hg Hw Hf H j. unfold vectorised in H.
  destruct (kernel_deltas t s his_t his_s) as [ds |] eqn:E.
  - destruct (mixture_loop_at f ds w gdks _ _ v (or_introl eq_refl) H) as [_ Hj].
    rewrite Hj. simpl. rewrite Rplus_0_l. apply sum_nonneg. intros k _.
    apply Rmult_le_pos; [apply nth_weight_nonneg, Hw |].
    destruct (nth_error gdks k) as [g |] eqn:Eg; [| lra].
    apply nth_map_nonneg. apply (Hf g ds); [| reflexivity].
    rewrite Forall_forall in Hg. apply Hg. apply (nth_error_In _ _ Eg).
  - destruct (mixture_loop_none w gdks _ _ _ H) as [_ ->]. simpl. lra.
Qed.

(** ** Claims on kernels and intensity *)

(** C4: [HawkesLam.value] is exactly the background rate [mu] when the
    history is empty, and exactly [mu] plus the sum of the kernel's
    per-event contributions [np.sum(kernel.nu(t, s, his_t, his_s))] when it
    is not (the value raises exactly when the kernel raises). *)
Theorem value_background_plus_kernel_sum (lam : HawkesLam) (t : R) (s : list R) :
  (forall his_s, value lam t [] s his_s = Some (lam_mu lam)) /\
  (forall his_t his_s, his_t <> [] ->
     value lam t his_t s his_s =
     match nu (lam_kernel lam) t s his_t his_s with
     | Some v => Some (lam_mu lam + np_sum v)
     | None => None
     end).
Proof.
  split.
  - intros his_s. reflexivity.
  - intros [| h his_t] his_s H; [contradiction H; reflexivity |]. reflexivity.
Qed.

Lemma value_background_plus_kernel_sum_witness :
  [0] <> [] /\
  value lam_flat 1 [0] [0; 0] [[0; 0]] =
  match nu (lam_kernel lam_flat) 1 [0; 0] [0] [[0; 0]] with
  | Some v => Some (lam_mu lam_flat + np_sum v)
  | None => None
  end.
Proof.
  split; [discriminate |].
  apply (proj2 (value_background_plus_kernel_sum lam_flat 1 [0; 0])). discriminate.
Defined.

(** C6 as stated: constructing a Gaussian diffusion kernel with
    [|rho| >= 1] does not succeed. *)
Definition construction_rejects_rho : Prop :=
  forall mu_x mu_y sigma_x sigma_y rho beta C,
    1 <= Rabs rho -> GaussianDiffusionKernel_init mu_x mu_y sigma_x sigma_y rho beta C = None.

(** C6 counterexample: [GaussianDiffusionKernel(rho=1.)] is constructed. *)
Lemma gaussian_kernel_accepts_rho_one : ~ construction_rejects_rho.
Proof.
  unfold construction_rejects_rho. intros H.
  assert (Hr : 1 <= Rabs 1) by (rewrite Rabs_R1; lra).
  specialize (H 0 0 1 1 1 1 1 Hr). discriminate H.
Qed.

(** C6 amended: no constructor validates its parameters.  The Gaussian and
    spatially varying kernels are built for every argument, storing [rho]
    (resp. [f_rho]) unchanged; the mixture constructors fail exactly when a
    per-component parameter list has fewer than [n_comp] entries, whatever
    the values of [rho]. *)
Theorem kernel_construction_does_not_validate :
  (forall mu_x mu_y sigma_x sigma_y rho beta C,
     GaussianDiffusionKernel_init mu_x mu_y sigma_x sigma_y rho beta C =
     Some (GaussianDiffusionKernel (mkGauss mu_x mu_y sigma_x sigma_y rho beta C))) /\
  (forall f_mu_x f_mu_y f_sigma_x f_sigma_y f_rho beta C,
     SpatialVariantGaussianDiffusionKernel_init f_mu_x f_mu_y f_sigma_x f_sigma_y f_rho beta C =
     Some (SpatialVariantGaussianDiffusionKernel
             (mkSV f_mu_x f_mu_y f_sigma_x f_sigma_y f_rho beta C))) /\
  (forall n_comp w mu_x mu_y sigma_x sigma_y rho beta C,
     GaussianMixtureDiffusionKernel_init n_comp w mu_x mu_y sigma_x sigma_y rho beta C <> None
     <-> (n_comp <= length mu_x /\ n_comp <= length mu_y /\ n_comp <= length sigma_x /\
          n_comp <= length sigma_y /\ n_comp <= length rho)%nat) /\
  (forall n_comp w f_mu_x f_mu_y f_sigma_x f_sigma_y f_rho beta C,
     SpatialVariantGaussianMixtureDiffusionKernel_init n_comp w
       f_mu_x f_mu_y f_sigma_x f_sigma_y f_rho beta C <> None
     <-> (n_comp <= length f_mu_x /\ n_comp <= length f_mu_y /\ n_comp <= length f_sigma_x /\
          n_comp <= length f_sigma_y /\ n_comp <= length f_rho)%nat).
Proof.
  assert (Hc : forall (X Y : Type) (mk : X -> X -> X -> X -> X -> Y) n l1 l2 l3 l4 l5
                 (P : list Y -> option Kernel),
             (forall gs, P gs <> None) ->
             match components mk (seq 0 n) l1 l2 l3 l4 l5 with
             | Some gs => P gs | None => None end <> None <->
             (n <= length l1 /\ n <= length l2 /\ n <= length l3 /\
              n <= length l4 /\ n <= length l5)%nat).
  { intros X Y mk n l1 l2 l3 l4 l5 P HP.
    pose proof (components_some mk n 0 l1 l2 l3 l4 l5) as Hs.
    destruct (components mk (seq 0 n) l1 l2 l3 l4 l5) as [gs |].
    - split; [| intros _; apply HP].
      intros _. destruct n as [| n]; [lia |].
      assert (Hn : (0 <= n < 0 + S n)%nat) by lia.
      destruct (proj1 Hs (fun H => ltac:(discriminate H)) n Hn) as (? & ? & ? & ? & ?). lia.
    - split; [intros H; contradiction H; reflexivity |].
      intros Hl. exfalso. apply (proj2 Hs); [| reflexivity]. intros k Hk. lia. }
  split; [| split; [| split]].
  - reflexivity.
  - reflexivity.
  - intros. apply Hc. intros gs. discriminate.
  - intros. apply Hc. intros gs. discriminate.
Qed.

(** C7: the mixture kernel's output is, entry by entry, the weighted sum
    [sum_k w[k] * gdks[k].nu(...)] of its components evaluated on the same
    arguments (whenever it returns at all, every component returns); with
    one component and weight 1 it is the plain anisotropic kernel. *)
Theorem mixture_is_weighted_sum :
  (forall K w gdks t s his_t his_s v,
     nu (GaussianMixtureDiffusionKernel K w gdks) t s his_t his_s = Some v ->
     (forall k, (k < K)%nat -> exists c,
        nu (GaussianDiffusionKernel (nth k gdks default_gauss)) t s his_t his_s = Some c) /\
     (forall j, np_at v j =
        fold_right Rplus 0
          (map (fun k => nth k w 0 *
                  np_at_opt (nu (GaussianDiffusionKernel (nth k gdks default_gauss))
                                t s his_t his_s) j)
               (seq 0 K)))) /\
  (forall g t s his_t his_s,
     nu (GaussianMixtureDiffusionKernel 1 [1] [g]) t s his_t his_s =
     nu (GaussianDiffusionKernel g) t s his_t his_s).
Proof.
  split.
  - intros K w gdks t s his_t his_s v H. simpl in H. unfold vectorised in H.
    destruct (kernel_deltas t s his_t his_s) as [ds |] eqn:E.
    + destruct (mixture_loop_at gauss_val ds w gdks _ _ v (or_introl eq_refl) H) as [Hin Hj].
      split.
      * intros k Hk.
        assert (Hks : In k (seq 0 K)) by (apply in_seq; lia).
        destruct (Hin k Hks) as (wk & g & _ & Eg).
        rewrite (nth_error_nth gdks k default_gauss Eg).
        simpl. unfold vectorised. rewrite E. eexists. reflexivity.
      * intros j. rewrite Hj. simpl. rewrite Rplus_0_l. f_equal.
        apply map_ext_in. intros k Hk. destruct (Hin k Hk) as (wk & g & _ & Eg).
        rewrite Eg, (nth_error_nth gdks k default_gauss Eg).
        simpl. unfold vectorised. rewrite E. reflexivity.
    + destruct (mixture_loop_none w gdks _ _ _ H) as [HK ->].
      assert (K = 0%nat) as -> by (rewrite <- (length_seq K 0), HK; reflexivity).
      split; [intros k Hk; lia | intros j; reflexivity].
  - intros g t s his_t his_s. simpl. unfold vectorised.
    destruct (kernel_deltas t s his_t his_s) as [ds |]; [| reflexivity].
    simpl np_scale. cbv iota. rewrite !map_map. f_equal. f_equal. apply map_ext. intros d. ring.
Qed.

Lemma mixture_is_weighted_sum_witness :
  nu (GaussianMixtureDiffusionKernel 1 [2] [default_gauss]) 1 [0; 0] [0] [[0; 0]] =
    Some (NArr [0 + 2 * gauss_val default_gauss (mkDelta (1 - 0) (0 - 0) (0 - 0) 0 0)]) /\
  np_at (NArr [0 + 2 * gauss_val default_gauss (mkDelta (1 - 0) (0 - 0) (0 - 0) 0 0)]) 0 =
    fold_right Rplus 0
      (map (fun k => nth k [2] 0 *
              np_at_opt (nu (GaussianDiffusionKernel (nth k [default_gauss] default_gauss))
                            1 [0; 0] [0] [[0; 0]]) 0)
           (seq 0 1)).
Proof.
  assert (H : nu (GaussianMixtureDiffusionKernel 1 [2] [default_gauss]) 1 [0; 0] [0] [[0; 0]] =
    Some (NArr [0 + 2 * gauss_val default_gauss (mkDelta (1 - 0) (0 - 0) (0 - 0) 0 0)]))
    by reflexivity.
  split; [exact H |].
  exact (proj2 (proj1 mixture_is_weighted_sum _ _ _ _ _ _ _ _ H) 0%nat).
Defined.

(** C8: the spatially varying kernel whose location functions are the
    constants [mu_x, mu_y, sigma_x, sigma_y, rho] computes exactly the plain
    anisotropic kernel with those constants (for every input, so in
    particular under [|rho| < 1], positive spreads and [delta_t > 0]). *)
Theorem spatial_variant_constant_is_gaussian
  (mu_x mu_y sigma_x sigma_y rho beta C t : R) (s his_t : list R) (his_s : list (list R)) :
  nu (SpatialVariantGaussianDiffusionKernel
        (mkSV (fun _ _ => mu_x) (fun _ _ => mu_y) (fun _ _ => sigma_x) (fun _ _ => sigma_y)
              (fun _ _ => rho) beta C)) t s his_t his_s =
  nu (GaussianDiffusionKernel (mkGauss mu_x mu_y sigma_x sigma_y rho beta C)) t s his_t his_s.
Proof.
  simpl. unfold vectorised.
  destruct (kernel_deltas t s his_t his_s) as [ds |]; [| reflexivity].
  reflexivity.
Qed.

(** C9: with valid parameters and every [t - his_t[j] > 0], every kernel
    variant returns only non-negative values. *)
Theorem kernel_nonneg (k : Kernel) (t : R) (s his_t : list R) (his_s : list (list R))
  (v : NpVal) :
  kernel_valid k ->
  (forall ht, In ht his_t -> 0 < t - ht) ->
  nu k t s his_t his_s = Some v ->
  forall j, 0 <= np_at v j.
Proof.
  intros Hk Hdt H j.
  assert (Hd : forall ds, kernel_deltas t s his_t his_s = Some ds ->
                 forall d, In d ds -> 0 < d_t d).
  { intros ds E d Hin. destruct (kernel_deltas_dt _ _ _ _ _ E d Hin) as (ht & Hht & ->).
    apply Hdt, Hht. }
  assert (Hvec : forall f, (forall ds, kernel_deltas t s his_t his_s = Some ds ->
                              forall d, In d ds -> 0 <= f d) ->
                 vectorised f t s his_t his_s = Some v -> 0 <= np_at v j).
  { intros f Hf Hv. unfold vectorised in Hv.
    destruct (kernel_deltas t s his_t his_s) as [ds |] eqn:E; [| discriminate].
    injection Hv as <-. simpl. apply nth_map_nonneg. apply Hf. reflexivity. }
  destruct k as [p | g | K w gdks | g | K w gdks]; simpl in Hk, H.
  - apply (Hvec (std_val p)); [| exact H]. intros ds E d Hin.
    destruct Hk as (? & ? & ?). apply std_val_nonneg; try assumption. apply (Hd ds E d Hin).
  - apply (Hvec (gauss_val g)); [| exact H]. intros ds E d Hin.
    destruct Hk as (? & ? & ? & ?). apply gaussian_formula_nonneg; try assumption.
    apply (Hd ds E d Hin).
  - destruct Hk as [Hg Hw].
    apply (mixture_nonneg gauss_valid gauss_val t s his_t his_s w gdks K v Hg Hw); [| exact H].
    intros g ds (? & ? & ? & ?) E d Hin. apply gaussian_formula_nonneg; try assumption.
    apply (Hd ds E d Hin).
  - apply (Hvec (sv_val g)); [| exact H]. intros ds E d Hin.
    destruct Hk as [HC Hf]. destruct (Hf (h_x d) (h_y d)) as (? & ? & ?).
    apply gaussian_formula_nonneg; try assumption. apply (Hd ds E d Hin).
  - destruct Hk as [Hg Hw].
    apply (mixture_nonneg sv_valid sv_val t s his_t his_s w gdks K v Hg Hw); [| exact H].
    intros g ds [HC Hf] E d Hin. destruct (Hf (h_x d) (h_y d)) as (? & ? & ?).
    apply gaussian_formula_nonneg; try assumption. apply (Hd ds E d Hin).
Qed.

Lemma kernel_nonneg_witness :
  kernel_valid (StdDiffusionKernel (mkStd 1 1 1 1)) /\
  (forall ht, In ht [0] -> 0 < 1 - ht) /\
  nu (StdDiffusionKernel (mkStd 1 1 1 1)) 1 [0; 0] [0] [[0; 0]] =
    Some (NArr [std_val (mkStd 1 1 1 1) (mkDelta (1 - 0) (0 - 0) (0 - 0) 0 0)]) /\
  0 <= np_at (NArr [std_val (mkStd 1 1 1 1) (mkDelta (1 - 0) (0 - 0) (0 - 0) 0 0)]) 0.
Proof.
  assert (H1 : kernel_valid (StdDiffusionKernel (mkStd 1 1 1 1))) by (simpl; lra).
  assert (H2 : forall ht, In ht [0] -> 0 < 1 - ht)
    by (intros ht [<- | []]; lra).
  assert (H3 : nu (StdDiffusionKernel (mkStd 1 1 1 1)) 1 [0; 0] [0] [[0; 0]] =
    Some (NArr [std_val (mkStd 1 1 1 1) (mkDelta (1 - 0) (0 - 0) (0 - 0) 0 0)]))
    by reflexivity.
  split; [exact H1 | split; [exact H2 | split; [exact H3 |]]].
  exact (kernel_nonneg _ _ _ _ _ _ H1 H2 H3 0%nat).
Defined.

(** C10: the isotropic kernel [StdDiffusionKernel(C, beta, sigma_x, sigma_y)]
    computes exactly the anisotropic one with [mu_x = mu_y = rho = 0] and the
    same [C, beta, sigma_x, sigma_y] (for every input). *)
Theorem std_is_gaussian_degenerate
  (C beta sigma_x sigma_y t : R) (s his_t : list R) (his_s : list (list R)) :
  nu (StdDiffusionKernel (mkStd C beta sigma_x sigma_y)) t s his_t his_s =
  nu (GaussianDiffusionKernel (mkGauss 0 0 sigma_x sigma_y 0 beta C)) t s his_t his_s.
Proof.
  simpl. unfold vectorised.
  destruct (kernel_deltas t s his_t his_s) as [ds |]; [| reflexivity].
  f_equal. f_equal. apply map_ext. intros [dt dx dy hx hy].
  unfold std_val, gauss_val, gaussian_formula; simpl.
  replace (1 - Rsqr 0) with 1 by (unfold Rsqr; ring).
  rewrite sqrt_1, !Rmult_1_r, !Rminus_0_r.
  f_equal. f_equal. unfold Rdiv. ring.
Qed.

(** * Sampler lemmas *)

Definition time_le (p q : list R) : Prop := time p <= time q.

Lemma insert_by_time_sorted p l :
  Sorted time_le l -> Sorted time_le (insert_by_time p l).
Proof.
  intros Hs. induction Hs as [| q l Hs IH Hhd]; simpl.
  - repeat constructor.
  - destruct (Rle_dec (time p) (time q)) as [Hpq | Hpq].
    + constructor; [constructor; assumption | constructor; exact Hpq].
    + constructor; [exact IH |].
      destruct l as [| q' l]; simpl.
      * constructor. unfold time_le. lra.
      * inversion Hhd as [| ? ? Hqq']; subst.
        destruct (Rle_dec (time p) (time q')); constructor; unfold time_le in *; lra.
Qed.

Lemma sort_by_time_sorted l : Sorted time_le (sort_by_time l).
Proof. induction l as [| p l IH]; simpl; [constructor | apply insert_by_time_sorted, IH]. Qed.

Lemma insert_by_time_In p q l : In q (insert_by_time p l) -> q = p \/ In q l.
Proof.
  induction l as [| r l IH]; simpl.
  - intros [<- | []]. left. reflexivity.
  - destruct (Rle_dec (time p) (time r)); simpl.
    + intros [<- | [<- | H]]; auto.
    + intros [<- | H]; [auto |]. destruct (IH H); auto.
Qed.

Lemma sort_by_time_In q l : In q (sort_by_time l) -> In q l.
Proof.
  induction l as [| p l IH]; simpl; [auto |].
  intros H. destruct (insert_by_time_In _ _ _ H); auto.
Qed.

(** Every proposal has one coordinate per dimension of [[T] + S]. *)
Lemma homogeneous_row_length T S a p :
  In p (homogeneous_poisson_sampling T S a) -> length p = length (T :: S).
Proof.
  unfold homogeneous_poisson_sampling. intros H. apply sort_by_time_In in H.
  apply in_map_iff in H. destruct H as (j & <- & _). rewrite length_map, length_seq.
  reflexivity.
Qed.

Lemma sorted_app_last l p :
  Sorted time_le l -> (forall q, In q l -> time q <= time p) -> Sorted time_le (l ++ [p]).
Proof.
  intros Hs. induction Hs as [| q l Hs IH Hhd]; simpl; intros Hle.
  - repeat constructor.
  - constructor.
    + apply IH. intros q' Hq'. apply Hle. right. exact Hq'.
    + destruct l as [| q' l]; simpl.
      * constructor. apply Hle. left. reflexivity.
      * inversion Hhd; subst. constructor. assumption.
Qed.

Lemma strongly_sorted_nth l i j a b :
  StronglySorted time_le l -> (i < j)%nat -> nth_error l i = Some a -> nth_error l j = Some b ->
  time a <= time b.
Proof.
  intros Hs. revert i j. induction Hs as [| x l Hs IH Hx]; intros i j Hij Ha Hb.
  - destruct i; discriminate.
  - destruct i as [| i], j as [| j]; simpl in *; try lia.
    + injection Ha as <-. rewrite Forall_forall in Hx. apply Hx. apply (nth_error_In _ _ Hb).
    + apply (IH i j); [lia | exact Ha | exact Hb].
Qed.

Lemma firstn_S_nth {A : Type} (l : list A) i x :
  nth_error l i = Some x -> firstn (S i) l = firstn i l ++ [x].
Proof.
  revert i. induction l as [| y l IH]; intros [| i] H; simpl in *; try discriminate.
  - injection H as <-. reflexivity.
  - f_equal. apply IH, H.
Qed.

Lemma nth_error_combine_seq {A : Type} (l : list A) a i :
  nth_error (combine (seq a (length l)) l) i =
  match nth_error l i with Some x => Some ((a + i)%nat, x) | None => None end.
Proof.
  revert a i. induction l as [| x l IH]; intros a [| i]; simpl; try reflexivity.
  - rewrite Nat.add_0_r. reflexivity.
  - rewrite IH. destruct (nth_error l i); [| reflexivity]. f_equal. f_equal. lia.
Qed.

Section Thinning.
Variables (lam : HawkesLam) (homo_points : list (list R)) (w : nat) (verbose : bool)
  (Ds : nat -> R).

Let st := thin_state lam homo_points w verbose Ds.
Let N := length homo_points.

Lemma thin_fold_stopped l s0 :
  status s0 <> Running -> fold_left (thin_step lam verbose N Ds) l s0 = s0.
Proof.
  revert s0. induction l as [| ip l IH]; simpl; intros s0 H; [reflexivity |].
  unfold thin_step at 2. destruct (status s0) eqn:E; [contradiction H; reflexivity | |];
    apply IH; rewrite E; discriminate.
Qed.

Lemma thin_state_S i p :
  nth_error homo_points i = Some p -> st (S i) = thin_step lam verbose N Ds (st i) (i, p).
Proof.
  intros H. unfold st, thin_state. fold N.
  rewrite (firstn_S_nth _ i (i, p)), fold_left_app; [reflexivity |].
  unfold N. rewrite nth_error_combine_seq, H. reflexivity.
Qed.

Lemma thin_state_all :
  st N = fold_left (thin_step lam verbose N Ds) (combine (seq 0 N) homo_points)
           (thin_init verbose N w).
Proof.
  unfold st, thin_state. fold N. rewrite firstn_all2; [reflexivity |].
  rewrite length_combine, length_seq. unfold N. lia.
Qed.

Lemma thinning_result :
  inhomogeneous_poisson_thinning lam homo_points w verbose Ds =
  match status (st N) with
  | Running =>
      (tlog (st N) ++ (if verbose then [MsgThinned (length (retained (st N))) w] else []),
       TSome (retained (st N)))
  | ReturnedNone => (tlog (st N), TNone)
  | Raised => (tlog (st N), TRaise)
  end.
Proof. rewrite thin_state_all. reflexivity. Qed.

Lemma thin_step_retained s0 i p :
  retained (thin_step lam verbose N Ds s0 (i, p)) = retained s0 \/
  retained (thin_step lam verbose N Ds s0 (i, p)) = retained s0 ++ [p].
Proof.
  unfold thin_step. destruct (status s0); try (left; reflexivity).
  destruct (value lam _ _ _ _) as [v |]; [| left; reflexivity].
  destruct (Rlt_dec (upper_bound lam) v); [left; reflexivity |].
  destruct (Rle_dec (Ds i * upper_bound lam) v);
    destruct (verbose && negb (Nat.eqb i 0))%bool;
    try destruct (Nat.eqb (Nat.div N 10) 0);
    try destruct (Nat.eqb (Nat.modulo i (Nat.div N 10)) 0); simpl; auto.
Qed.

(** The step of a running state on candidate [p] evaluated to [v]. *)
Lemma thin_step_running s0 i p :
  status s0 = Running ->
  match value lam (time p) (map time (retained s0)) (loc p) (map loc (retained s0)) with
  | None => status (thin_step lam verbose N Ds s0 (i, p)) = Raised
  | Some v =>
      if Rlt_dec (upper_bound lam) v then
        thin_step lam verbose N Ds s0 (i, p) =
        mkTState (retained s0) (tlog s0 ++ [MsgBound v (upper_bound lam)]) ReturnedNone
      else
        retained (thin_step lam verbose N Ds s0 (i, p)) =
        (if Rle_dec (Ds i * upper_bound lam) v then retained s0 ++ [p] else retained s0)
  end.
Proof.
  intros Hs. unfold thin_step. rewrite Hs.
  destruct (value lam _ _ _ _) as [v |]; [| reflexivity].
  destruct (Rlt_dec (upper_bound lam) v); [reflexivity |].
  destruct (verbose && negb (Nat.eqb i 0))%bool;
    try destruct (Nat.eqb (Nat.div N 10) 0);
    try destruct (Nat.eqb (Nat.modulo i (Nat.div N 10)) 0); reflexivity.
Qed.

End Thinning.

Section ThinningRuns.
Variables (lam : HawkesLam) (homo_points : list (list R)) (w : nat) (verbose : bool)
  (Ds : nat -> R).

Let st := thin_state lam homo_points w verbose Ds.
Let N := length homo_points.

Lemma thin_step_stopped s0 ip :
  status s0 <> Running -> thin_step lam verbose N Ds s0 ip = s0.
Proof.
  intros H. unfold thin_step. destruct (status s0); [contradiction H |..]; reflexivity.
Qed.

Lemma thin_state_0 : st 0 = thin_init verbose N w.
Proof. reflexivity. Qed.

Lemma thin_state_rest i :
  st N = fold_left (thin_step lam verbose N Ds)
           (skipn i (combine (seq 0 N) homo_points)) (st i).
Proof.
  unfold st at 2. unfold thin_state. fold N.
  rewrite <- fold_left_app, firstn_skipn. apply thin_state_all.
Qed.

Lemma thin_status_prev i :
  (i < N)%nat -> status (st (S i)) = Running -> status (st i) = Running.
Proof.
  intros Hi H. destruct (nth_error homo_points i) as [p |] eqn:Ep.
  - unfold st in H. rewrite (thin_state_S _ _ _ _ _ _ _ Ep) in H. fold st in H.
    destruct (status (st i)) eqn:E; [reflexivity | |];
      rewrite thin_step_stopped in H by (rewrite E; discriminate); congruence.
  - apply nth_error_None in Ep. unfold N in Hi. lia.
Qed.

Lemma thin_all_running :
  status (st N) = Running -> forall i, (i <= N)%nat -> status (st i) = Running.
Proof.
  intros HN. assert (forall d, (d <= N)%nat -> status (st (N - d)) = Running) as Hd.
  { induction d as [| d IH]; intros Hd.
    - rewrite Nat.sub_0_r. exact HN.
    - apply thin_status_prev; [lia |]. replace (S (N - S d)) with (N - d)%nat by lia.
      apply IH. lia. }
  intros i Hi. replace i with (N - (N - i))%nat by lia. apply Hd. lia.
Qed.


(** The retained points are proposals, in non-decreasing time order, and
    not later than any proposal not processed yet. *)
Lemma thin_retained_invariant :
  Sorted time_le homo_points ->
  forall i, (i <= N)%nat ->
  Sorted time_le (retained (st i)) /\
  forall q, In q (retained (st i)) ->
    In q homo_points /\
    forall j p, (i <= j)%nat -> nth_error homo_points j = Some p -> time q <= time p.
Proof.
  intros Hsort. apply Sorted_StronglySorted in Hsort;
    [| intros a b c; unfold time_le; lra].
  induction i as [| i IH]; intros Hi.
  - rewrite thin_state_0. simpl. split; [constructor | intros q []].
  - destruct (nth_error homo_points i) as [p |] eqn:Ep;
      [| apply nth_error_None in Ep; unfold N in Hi; lia].
    destruct (IH ltac:(lia)) as [Hs Hq].
    unfold st. rewrite (thin_state_S _ _ _ _ _ _ _ Ep). fold st.
    destruct (thin_step_retained lam homo_points verbose Ds (st i) i p) as [-> | ->].
    + split; [exact Hs |]. intros q Hin. destruct (Hq q Hin) as [Hh Hl].
      split; [exact Hh |]. intros j p' Hj. apply Hl. lia.
    + split.
      * apply sorted_app_last; [exact Hs |]. intros q Hin.
        apply (proj2 (Hq q Hin) i p); [lia | exact Ep].
      * intros q Hin. apply in_app_or in Hin. destruct Hin as [Hin | [<- | []]].
        -- destruct (Hq q Hin) as [Hh Hl]. split; [exact Hh |].
           intros j p' Hj. apply Hl. lia.
        -- split; [apply (nth_error_In _ _ Ep) |].
           intros j p' Hj Ep'. apply (strongly_sorted_nth homo_points i j);
             [exact Hsort | lia | exact Ep | exact Ep'].
Qed.

(** A bound violation at candidate [i] ends the pass: [None] is returned
    and the message reporting it is the last one written. *)
Lemma thin_violation i p v :
  status (st i) = Running -> nth_error homo_points i = Some p ->
  value lam (time p) (map time (retained (st i))) (loc p) (map loc (retained (st i)))
    = Some v ->
  upper_bound lam < v ->
  inhomogeneous_poisson_thinning lam homo_points w verbose Ds =
  (tlog (st i) ++ [MsgBound v (upper_bound lam)], TNone).
Proof.
  intros Hr Hp Hv Hlt.
  pose proof (thin_step_running lam homo_points verbose Ds (st i) i p Hr) as Hs.
  fold N in Hs. rewrite Hv in Hs.
  destruct (Rlt_dec (upper_bound lam) v) as [_ | Hn]; [| contradiction].
  assert (HS : st (S i) = mkTState (retained (st i)) (tlog (st i) ++ [MsgBound v (upper_bound lam)])
                            ReturnedNone).
  { unfold st at 1. rewrite (thin_state_S _ _ _ _ _ _ _ Hp). fold st N. exact Hs. }
  rewrite thinning_result. fold st N.
  rewrite (thin_state_rest (S i)), HS. unfold N. rewrite thin_fold_stopped by discriminate.
  reflexivity.
Qed.

End ThinningRuns.

Lemma max_len_update (max_len n : nat) :
  (if Nat.ltb max_len n then n else max_len) = Nat.max max_len n.
Proof. destruct (Nat.ltb_spec max_len n); lia. Qed.

Lemma fold_left_max (l : list nat) (a : nat) :
  fold_left Nat.max l a = Nat.max a (list_max_nat l).
Proof.
  revert a. induction l as [| x l IH]; intros a; simpl; [lia |]. rewrite IH. lia.
Qed.

Lemma list_max_nat_In (l : list nat) (x : nat) : In x l -> (x <= list_max_nat l)%nat.
Proof. induction l as [| y l IH]; simpl; [intros [] | intros [-> | H]; [lia | apply IH in H; lia]]. Qed.

(** What [gen_loop] records: the complete outputs of thinning passes of
    attempts, each with at least [min_n_points] points, until the batch is
    full. *)
Lemma gen_loop_recorded lam T S batch_size min_n_points verbose att :
  forall fuel k b max_len points_list sizes lg max_len' points_list' sizes',
  gen_loop lam T S batch_size min_n_points verbose att fuel k b max_len points_list sizes
    = (lg, LDone max_len' points_list' sizes') ->
  exists added,
    points_list' = points_list ++ added /\
    Forall (fun pts => exists k' lg',
              attempt_thin lam T S verbose att k' = (lg', TSome pts) /\
              (min_n_points <= length pts)%nat) added /\
    sizes' = sizes ++ map (@length (list R)) added /\
    max_len' = fold_left Nat.max (map (@length (list R)) added) max_len /\
    length added = (batch_size - b)%nat.
Proof.
  induction fuel as [| fuel IH];
    intros k b max_len points_list sizes lg max_len' points_list' sizes' H.
  - discriminate H.
  - destruct (Nat.ltb b batch_size) eqn:Hb.
    + destruct (attempt_thin lam T S verbose att k) as [lg0 out] eqn:Ht.
      destruct out as [| pts |].
      * rewrite (gen_loop_discard _ _ _ _ _ _ _ _ _ _ _ _ _ _ _ Hb Ht (or_introl eq_refl)) in H.
        destruct (gen_loop _ _ _ _ _ _ _ fuel _ _ _ _ _) as [lg' r] eqn:E.
        injection H as _ ->. exact (IH _ _ _ _ _ _ _ _ _ E).
      * destruct (Nat.ltb (length pts) min_n_points) eqn:Hl.
        -- rewrite (gen_loop_discard _ _ _ _ _ _ _ _ _ _ _ _ _ _ _ Hb Ht
                      (or_intror (ex_intro _ pts (conj eq_refl Hl)))) in H.
           destruct (gen_loop _ _ _ _ _ _ _ fuel _ _ _ _ _) as [lg' r] eqn:E.
           injection H as _ ->. exact (IH _ _ _ _ _ _ _ _ _ E).
        -- rewrite (gen_loop_record _ _ _ _ _ _ _ _ _ _ _ _ _ _ _ Hb Ht Hl) in H.
           cbv zeta in H. rewrite max_len_update in H.
           destruct (gen_loop _ _ _ _ _ _ _ fuel _ _ _ _ _) as [lg' r] eqn:E.
           injection H as _ ->.
           destruct (IH _ _ _ _ _ _ _ _ _ E) as (added & Hp & Hf & Hs & Hm & Hlen).
           exists (pts :: added). split; [| split; [| split; [| split]]].
           ++ rewrite Hp, <- app_assoc. reflexivity.
           ++ constructor; [| exact Hf]. exists k, lg0. split; [exact Ht |].
              apply Nat.ltb_ge, Hl.
           ++ rewrite Hs, <- app_assoc. reflexivity.
           ++ exact Hm.
           ++ simpl. apply Nat.ltb_lt in Hb. lia.
      * rewrite (gen_loop_raise _ _ _ _ _ _ _ _ _ _ _ _ _ _ Hb Ht) in H. discriminate H.
    + rewrite gen_loop_full in H by exact Hb. injection H as _ <- <- <-.
      exists []. apply Nat.ltb_ge in Hb. simpl. rewrite !app_nil_r.
      repeat split; try reflexivity; try constructor. lia.
Qed.

Lemma pack_Forall2 w max_len points_list data :
  pack w max_len points_list = Some data ->
  Forall2 (fun pts d => assign_seq w max_len pts = Some d) points_list data.
Proof.
  revert data. induction points_list as [| pts rest IH]; simpl; intros data H.
  - injection H as <-. constructor.
  - destruct (assign_seq w max_len pts) as [d |] eqn:E1; [| discriminate].
    destruct (pack w max_len rest) as [ds |] eqn:E2; [| discriminate].
    injection H as <-. constructor; [exact E1 | apply IH; reflexivity].
Qed.

(** What [generate] returns: the packing of the recorded sequences. *)
Lemma generate_ok_inv lam T S batch_size min_n_points verbose att fuel lg data sizes :
  generate lam T S batch_size min_n_points verbose att fuel = (lg, GOk data sizes) ->
  exists points_list,
    pack (length (T :: S)) (list_max_nat sizes) points_list = Some data /\
    sizes = map (@length (list R)) points_list /\
    length points_list = batch_size /\
    Forall (fun pts => exists k lg',
              attempt_thin lam T S verbose att k = (lg', TSome pts) /\
              (min_n_points <= length pts)%nat) points_list.
Proof.
  unfold generate. intros H.
  destruct (gen_loop lam T S batch_size min_n_points verbose att fuel 0 0 0 [] [])
    as [lg0 [max_len points_list sizes0 | |]] eqn:E; try discriminate H.
  destruct (pack (length (T :: S)) max_len points_list) as [d |] eqn:Ep; [| discriminate H].
  injection H as _ <- <-.
  destruct (gen_loop_recorded _ _ _ _ _ _ _ _ _ _ _ _ _ _ _ _ _ E)
    as (added & Hp & Hf & Hs & Hm & Hlen).
  simpl in Hp, Hs. subst points_list sizes0.
  exists added. rewrite fold_left_max in Hm. simpl in Hm. subst max_len.
  repeat split; [exact Ep | rewrite Hlen; lia | exact Hf].
Qed.

(** A thinning pass that returns points returned the retained points of a
    pass that ran through every candidate. *)
Lemma attempt_thin_some lam T S verbose att k lg pts :
  attempt_thin lam T S verbose att k = (lg, TSome pts) ->
  let homo := homogeneous_poisson_sampling T S (att k) in
  let st := thin_state lam homo (length (T :: S)) verbose (a_D (att k)) in
  pts = retained (st (length homo)) /\ status (st (length homo)) = Running.
Proof.
  unfold attempt_thin. rewrite thinning_result. simpl.
  destruct (status _) eqn:E; intros H; try discriminate H.
  injection H as _ <-. split; reflexivity.
Qed.

Lemma attempt_thin_rows lam T S verbose att k lg pts :
  attempt_thin lam T S verbose att k = (lg, TSome pts) ->
  Sorted time_le pts /\
  forall q, In q pts -> In q (homogeneous_poisson_sampling T S (att k)) /\
                       length q = length (T :: S).
Proof.
  intros H. destruct (attempt_thin_some _ _ _ _ _ _ _ _ H) as [-> _].
  destruct (thin_retained_invariant lam (homogeneous_poisson_sampling T S (att k))
              (length (T :: S)) verbose (a_D (att k))
              ltac:(apply sort_by_time_sorted) _ (le_n _)) as [Hs Hq].
  split; [exact Hs |]. intros q Hin. destruct (Hq q Hin) as [Hh _].
  split; [exact Hh | apply (homogeneous_row_length _ _ _ _ Hh)].
Qed.

Lemma nth_padding (rows : list (list R)) (z : list R) (m j : nat) :
  (length rows <= j < length rows + m)%nat -> nth j (rows ++ repeat z m) [] = z.
Proof.
  intros Hj. rewrite app_nth2 by lia. rewrite (nth_indep _ [] z) by (rewrite repeat_length; lia).
  apply nth_repeat.
Qed.

Lemma Forall2_nth_error_r {A B : Type} (P : A -> B -> Prop) l1 l2 b y :
  Forall2 P l1 l2 -> nth_error l2 b = Some y -> exists x, nth_error l1 b = Some x /\ P x y.
Proof.
  intros H. revert b. induction H as [| x y' l1 l2 Hxy H IH]; intros [| b] Hb;
    simpl in *; try discriminate.
  - injection Hb as <-. exists x. auto.
  - apply IH, Hb.
Qed.

Lemma Forall2_nth_error_l {A B : Type} (P : A -> B -> Prop) l1 l2 b x :
  Forall2 P l1 l2 -> nth_error l1 b = Some x -> exists y, nth_error l2 b = Some y /\ P x y.
Proof.
  intros H. revert b. induction H as [| x' y l1 l2 Hxy H IH]; intros [| b] Hb;
    simpl in *; try discriminate.
  - injection Hb as <-. exists y. auto.
  - apply IH, Hb.
Qed.

(** Concrete runs. *)

(** A flat intensity: the mixture with no component always adds 0. *)
Definition lam_const : HawkesLam := mkLam 1 (GaussianMixtureDiffusionKernel 0 [] []) 1.
Definition att_tie (k : nat) : Attempt := mkAttempt 2 (fun _ _ => /2) (fun _ => /4).
Definition p_mid : list R := [uniform 0 1 (/2); uniform 0 1 (/2); uniform 0 1 (/2)].

Lemma attempt_thin_tie k :
  attempt_thin lam_const (0, 1) [(0, 1); (0, 1)] false att_tie k = ([], TSome [p_mid; p_mid]).
Proof.
  unfold attempt_thin, inhomogeneous_poisson_thinning, homogeneous_poisson_sampling.
  simpl. decide_R. unfold thin_step, value, upper_bound. simpl. decide_R.
  simpl. decide_R. reflexivity.
Qed.

Lemma generate_tie :
  generate lam_const (0, 1) [(0, 1); (0, 1)] 1 1 false att_tie 5 =
  ([MsgSequence 1], GOk [[p_mid; p_mid]] [2%nat]).
Proof.
  unfold generate.
  rewrite (gen_loop_record lam_const (0, 1) [(0, 1); (0, 1)] 1 1 false att_tie 4 0 0 0 [] [] []
             [p_mid; p_mid] eq_refl (attempt_thin_tie 0) eq_refl).
  cbv zeta. rewrite gen_loop_full by reflexivity. reflexivity.
Qed.

(** ** Claims on the sampler *)

(** C1: the proposals are sorted by time (non-decreasing) and processed in
    that order from an empty retained set; at candidate [i] the intensity
    is evaluated with the points retained so far as history, and (when it
    does not exceed the bound) the candidate is appended exactly when
    [lam_value >= D * upper_bound] for the variate [D] of iteration [i];
    the pass returns the retained set obtained after the last candidate. *)
Theorem thinning_processes_in_time_order (lam : HawkesLam) (T : R * R) (S : list (R * R))
  (a : Attempt) (verbose : bool) :
  let homo_points := homogeneous_poisson_sampling T S a in
  let st := thin_state lam homo_points (length (T :: S)) verbose (a_D a) in
  Sorted time_le homo_points /\
  retained (st 0%nat) = [] /\
  (forall i p lam_value,
     nth_error homo_points i = Some p ->
     status (st i) = Running ->
     value lam (time p) (map time (retained (st i))) (loc p) (map loc (retained (st i)))
       = Some lam_value ->
     lam_value <= upper_bound lam ->
     (retained (st (Datatypes.S i)) = retained (st i) ++ [p] /\
      a_D a i * upper_bound lam <= lam_value) \/
     (retained (st (Datatypes.S i)) = retained (st i) /\
      lam_value < a_D a i * upper_bound lam)) /\
  (forall lg pts,
     inhomogeneous_poisson_thinning lam homo_points (length (T :: S)) verbose (a_D a)
       = (lg, TSome pts) ->
     pts = retained (st (length homo_points))).
Proof.
  intros homo_points st. split; [| split; [| split]].
  - apply sort_by_time_sorted.
  - reflexivity.
  - intros i p v Hp Hr Hv Hle. unfold st.
    rewrite (thin_state_S _ _ _ _ _ _ _ Hp). fold st.
    pose proof (thin_step_running lam homo_points verbose (a_D a) (st i) i p Hr) as Hs.
    rewrite Hv in Hs. destruct (Rlt_dec (upper_bound lam) v) as [Hlt | _]; [lra |].
    rewrite Hs. destruct (Rle_dec (a_D a i * upper_bound lam) v) as [Hd | Hd].
    + left. auto.
    + right. split; [reflexivity | lra].
  - intros lg pts H. rewrite thinning_result in H. fold st in H.
    destruct (status _); try discriminate H. injection H as _ <-. reflexivity.
Qed.

Lemma thinning_processes_in_time_order_witness :
  nth_error (homogeneous_poisson_sampling (0, 1) [] (att_one 0)) 0 = Some [uniform 0 1 (/2)] /\
  status (thin_state lam_flat (homogeneous_poisson_sampling (0, 1) [] (att_one 0)) 1 false
            (a_D (att_one 0)) 0) = Running /\
  value lam_flat (time [uniform 0 1 (/2)]) [] (loc [uniform 0 1 (/2)]) [] = Some 1 /\
  1 <= upper_bound lam_flat /\
  ((retained (thin_state lam_flat (homogeneous_poisson_sampling (0, 1) [] (att_one 0)) 1 false
                (a_D (att_one 0)) 1) =
    retained (thin_state lam_flat (homogeneous_poisson_sampling (0, 1) [] (att_one 0)) 1 false
                (a_D (att_one 0)) 0) ++ [[uniform 0 1 (/2)]] /\
    a_D (att_one 0) 0 * upper_bound lam_flat <= 1) \/
   (retained (thin_state lam_flat (homogeneous_poisson_sampling (0, 1) [] (att_one 0)) 1 false
                (a_D (att_one 0)) 1) =
    retained (thin_state lam_flat (homogeneous_poisson_sampling (0, 1) [] (att_one 0)) 1 false
                (a_D (att_one 0)) 0) /\
    1 < a_D (att_one 0) 0 * upper_bound lam_flat)).
Proof.
  assert (H1 : nth_error (homogeneous_poisson_sampling (0, 1) [] (att_one 0)) 0 =
               Some [uniform 0 1 (/2)]) by reflexivity.
  assert (H2 : status (thin_state lam_flat (homogeneous_poisson_sampling (0, 1) [] (att_one 0))
                 1 false (a_D (att_one 0)) 0) = Running) by reflexivity.
  assert (H3 : value lam_flat (time [uniform 0 1 (/2)]) [] (loc [uniform 0 1 (/2)]) [] = Some 1)
    by reflexivity.
  assert (H4 : 1 <= upper_bound lam_flat) by (unfold upper_bound; simpl; lra).
  split; [exact H1 | split; [exact H2 | split; [exact H3 | split; [exact H4 |]]]].
  exact (proj1 (proj2 (proj2 (thinning_processes_in_time_order lam_flat (0, 1) [] (att_one 0)
           false))) 0%nat [uniform 0 1 (/2)] 1 H1 H2 H3 H4).
Defined.






(** A bound violation at the first candidate: background rate 2 above the
    declared bound 1. *)
Definition lam_over : HawkesLam := mkLam 2 (StdDiffusionKernel (mkStd 1 1 1 1)) 1.
Definition att_single (k : nat) : Attempt := mkAttempt 1 (fun _ _ => /2) (fun _ => /4).

(** C3: if, at some candidate [i] of the pass of attempt [k] that is still
    running, the intensity [v] exceeds the upper bound, the pass stops
    there: it returns no points ([None]) and its log is the log so far
    followed by the violation report; [generate] then goes on with the
    next attempt for the same batch slot, keeping what it had recorded;
    and every sequence [generate] returns is the complete output of a
    pass that did not fail (so not that of attempt [k]), with at least
    [min_n_points] events. *)
Theorem bound_violation_discards_attempt lam T S batch_size min_n_points verbose att k i p v :
  let homo := homogeneous_poisson_sampling T S (att k) in
  let st := thin_state lam homo (length (T :: S)) verbose (a_D (att k)) i in
  status st = Running ->
  nth_error homo i = Some p ->
  value lam (time p) (map time (retained st)) (loc p) (map loc (retained st)) = Some v ->
  upper_bound lam < v ->
  attempt_thin lam T S verbose att k = (tlog st ++ [MsgBound v (upper_bound lam)], TNone) /\
  (forall fuel b max_len points_list sizes, (b < batch_size)%nat ->
     gen_loop lam T S batch_size min_n_points verbose att (Datatypes.S fuel) k b max_len
       points_list sizes =
     let '(lg', r) := gen_loop lam T S batch_size min_n_points verbose att fuel
                        (Datatypes.S k) b max_len points_list sizes in
     ((tlog st ++ [MsgBound v (upper_bound lam)]) ++ lg', r)) /\
  (forall fuel lg data sizes,
     generate lam T S batch_size min_n_points verbose att fuel = (lg, GOk data sizes) ->
     exists points_list,
       pack (length (T :: S)) (list_max_nat sizes) points_list = Some data /\
       sizes = map (@length (list R)) points_list /\
       Forall (fun pts => exists k' lg',
                 k' <> k /\ attempt_thin lam T S verbose att k' = (lg', TSome pts) /\
                 (min_n_points <= length pts)%nat) points_list).
Proof.
  intros homo st Hr Hp Hv Hlt.
  assert (Ht : attempt_thin lam T S verbose att k =
               (tlog st ++ [MsgBound v (upper_bound lam)], TNone)).
  { unfold attempt_thin. exact (thin_violation _ _ _ _ _ i p v Hr Hp Hv Hlt). }
  split; [exact Ht | split].
  - intros fuel b max_len points_list sizes Hb.
    apply (gen_loop_discard _ _ _ _ _ _ _ _ _ _ _ _ _ _ _ (proj2 (Nat.ltb_lt _ _) Hb) Ht).
    left. reflexivity.
  - intros fuel lg data sizes H.
    destruct (generate_ok_inv _ _ _ _ _ _ _ _ _ _ _ H) as (pl & Hpk & Hs & _ & Hf).
    exists pl. split; [exact Hpk | split; [exact Hs |]].
    rewrite Forall_forall in *. intros pts Hin.
    destruct (Hf pts Hin) as (k' & lg' & Ht' & Hm).
    exists k', lg'. split; [| split; [exact Ht' | exact Hm]].
    intros ->. rewrite Ht in Ht'. discriminate.
Qed.

Lemma bound_violation_discards_attempt_witness :
  attempt_thin lam_over (0, 1) [] false att_single 0 = ([MsgBound 2 1], TNone).
Proof.
  destruct (bound_violation_discards_attempt lam_over (0, 1) [] 1 1 false att_single 0 0
              [uniform 0 1 (/2)] 2 eq_refl eq_refl eq_refl ltac:(simpl; lra)) as [H _].
  exact H.
Defined.

(** The shape of one packed sequence. *)
Lemma assign_seq_shape w max_len pts d :
  (length pts <= max_len)%nat ->
  (forall q, In q pts -> length q = w) ->
  assign_seq w max_len pts = Some d ->
  length d = max_len /\ Forall (fun row => length row = 3%nat) d /\
  forall j, (length pts <= j < length d)%nat -> nth j d [] = [0; 0; 0].
Proof.
  intros Hle Hq H. unfold assign_seq in H.
  assert (Hpad : forall rs, length rs = length pts -> Forall (fun row => length row = 3%nat) rs ->
            Some (rs ++ repeat [0; 0; 0] (max_len - length pts)) = Some d ->
            length d = max_len /\ Forall (fun row => length row = 3%nat) d /\
            forall j, (length pts <= j < length d)%nat -> nth j d [] = [0; 0; 0]).
  { intros rs Hl Hf Hd. injection Hd as <-.
    rewrite length_app, repeat_length. split; [lia | split].
    - apply Forall_app. split; [exact Hf |]. apply Forall_forall. intros x Hx.
      apply repeat_spec in Hx. subst x. reflexivity.
    - intros j Hj. apply nth_padding. lia. }
  destruct (Nat.eqb w 3) eqn:E3.
  - apply Nat.eqb_eq in E3. subst w. apply (Hpad pts eq_refl); [| exact H].
    apply Forall_forall. exact Hq.
  - destruct (Nat.eqb w 1); [| discriminate H].
    apply (Hpad _ (length_map (fun p : list R => [hd 0 p; hd 0 p; hd 0 p]) pts)); [| exact H].
    apply Forall_forall. intros x Hx. apply in_map_iff in Hx. destruct Hx as (q & <- & _).
    reflexivity.
Qed.

(** C5 as stated: shape [(batch_size, max(lengths), 1+len(S))] with zero
    padding beyond each true length. *)
Definition batch_shape_as_claimed : Prop :=
  forall lam T S batch_size min_n_points verbose att fuel lg data sizes,
    generate lam T S batch_size min_n_points verbose att fuel = (lg, GOk data sizes) ->
    length data = batch_size /\
    Forall (fun d => length d = list_max_nat sizes /\
                     Forall (fun row => length row = (1 + length S)%nat) d) data /\
    (forall b d j, nth_error data b = Some d -> (nth b sizes 0%nat <= j < length d)%nat ->
                   Forall (fun x => x = 0) (nth j d [])).

(** C5 counterexample: with no spatial dimension ([S = []]) the batch
    array still has 3 columns ([np.zeros((batch_size, max_len, 3))]); the
    one-column sequence is broadcast into all three. *)
Lemma generate_last_dim_is_three : ~ batch_shape_as_claimed.
Proof.
  unfold batch_shape_as_claimed. intros H.
  destruct (H _ _ _ _ _ _ _ _ _ _ _ generate_flat) as (_ & Hf & _).
  inversion Hf as [| d l Hd _]. destruct Hd as [_ Hr].
  inversion Hr as [| row l' Hrow _]. discriminate Hrow.
Qed.

(** C5 amended: the batch array has [batch_size] sequences of
    [max(lengths)] rows each, every row has 3 entries whatever [len(S)]
    is, and rows at positions [lengths[b]] and beyond are zero rows. With
    [len(S) = 2] sequence [b] is exactly the [b]-th recorded sequence
    followed by the padding; with [S = []] each time is broadcast into the
    three columns; for [batch_size >= 1] a call returns only if
    [len(S) = 0] or [len(S) = 2]. *)
Theorem generate_batch_shape lam T S batch_size min_n_points verbose att fuel lg data sizes :
  generate lam T S batch_size min_n_points verbose att fuel = (lg, GOk data sizes) ->
  length data = batch_size /\ length sizes = batch_size /\
  ((1 <= batch_size)%nat -> length S = 0%nat \/ length S = 2%nat) /\
  (forall b d, nth_error data b = Some d ->
     length d = list_max_nat sizes /\ Forall (fun row => length row = 3%nat) d /\
     forall j, (nth b sizes 0%nat <= j < length d)%nat -> nth j d [] = [0; 0; 0]) /\
  exists points_list,
    sizes = map (@length (list R)) points_list /\
    (length S = 2%nat ->
       Forall2 (fun pts d => d = pts ++ repeat [0; 0; 0] (list_max_nat sizes - length pts))
         points_list data) /\
    (S = [] ->
       Forall2 (fun pts d => d = map (fun p => [hd 0 p; hd 0 p; hd 0 p]) pts
                                 ++ repeat [0; 0; 0] (list_max_nat sizes - length pts))
         points_list data).
Proof.
  intros H. destruct (generate_ok_inv _ _ _ _ _ _ _ _ _ _ _ H) as (pl & Hpk & Hs & Hl & Hf).
  pose proof (pack_Forall2 _ _ _ _ Hpk) as F2.
  split; [rewrite <- (Forall2_length F2); exact Hl |].
  split; [rewrite Hs, length_map; exact Hl |].
  split.
  { intros Hb. destruct pl as [| pts pl']; [simpl in Hl; lia |].
    inversion F2 as [| pts' d0 pl'' ds Ha _]; subst.
    unfold assign_seq in Ha. simpl length in Ha.
    destruct (Nat.eqb (Datatypes.S (length S)) 3) eqn:E3.
    - apply Nat.eqb_eq in E3. right. lia.
    - destruct (Nat.eqb (Datatypes.S (length S)) 1) eqn:E1; [| discriminate Ha].
      apply Nat.eqb_eq in E1. left. lia. }
  split.
  - intros b d Hd. destruct (Forall2_nth_error_r _ _ _ _ _ F2 Hd) as (pts & Hpts & Ha).
    assert (Hnb : nth b sizes 0%nat = length pts).
    { apply nth_error_nth. rewrite Hs, nth_error_map, Hpts. reflexivity. }
    rewrite Hnb. apply (assign_seq_shape (length (T :: S))); [| | exact Ha].
    + apply list_max_nat_In. rewrite Hs. apply in_map, (nth_error_In _ _ Hpts).
    + rewrite Forall_forall in Hf. destruct (Hf pts (nth_error_In _ _ Hpts)) as (k & lg' & Ht & _).
      intros q Hq. apply (proj2 (attempt_thin_rows _ _ _ _ _ _ _ _ Ht) q Hq).
  - exists pl. split; [exact Hs | split].
    + intros H2. eapply Forall2_impl; [| exact F2]. intros pts d Ha.
      unfold assign_seq in Ha. simpl length in Ha. rewrite H2 in Ha. simpl in Ha.
      injection Ha as <-. reflexivity.
    + intros ->. eapply Forall2_impl; [| exact F2]. intros pts d Ha.
      unfold assign_seq in Ha. simpl in Ha. injection Ha as <-. reflexivity.
Qed.

Lemma generate_batch_shape_witness :
  generate lam_flat (0, 1) [] 1 1 false att_one 5 =
    ([MsgSequence 1], GOk [[[uniform 0 1 (/2); uniform 0 1 (/2); uniform 0 1 (/2)]]] [1%nat]) /\
  length [[[uniform 0 1 (/2); uniform 0 1 (/2); uniform 0 1 (/2)]]] = 1%nat.
Proof.
  split; [exact generate_flat |].
  exact (proj1 (generate_batch_shape _ _ _ _ _ _ _ _ _ _ _ generate_flat)).
Defined.

(** * Further properties of the sampler, the kernels and the plots *)

(** ** [_homogeneous_poisson_sampling] *)

(** The points drawn before sorting: row [j] has coordinate [i] drawn
    uniformly on the [i]-th interval of [[T] + S]. *)
Definition raw_points (T : R * R) (S : list (R * R)) (a : Attempt) : list (list R) :=
  map (fun j =>
         map (fun i => let iv := nth i (T :: S) (0, 0) in uniform (fst iv) (snd iv) (a_U a i j))
             (seq 0 (length (T :: S))))
      (seq 0 (a_N a)).

Lemma insert_by_time_perm p l : Permutation (insert_by_time p l) (p :: l).
Proof.
  induction l as [| q l IH]; simpl; [reflexivity |].
  destruct (Rle_dec (time p) (time q)); [reflexivity |].
  rewrite IH. apply perm_swap.
Qed.

Lemma sort_by_time_perm l : Permutation (sort_by_time l) l.
Proof.
  induction l as [| p l IH]; simpl; [reflexivity |].
  rewrite insert_by_time_perm. apply perm_skip, IH.
Qed.

Lemma nth_map_seq {A : Type} (f : nat -> A) (n i : nat) (d : A) :
  (i < n)%nat -> nth i (map f (seq 0 n)) d = f i.
Proof.
  intros Hi. rewrite (nth_indep _ d (f 0%nat)) by (rewrite length_map, length_seq; exact Hi).
  rewrite map_nth, seq_nth by exact Hi. reflexivity.
Qed.

(** [homogeneous_poisson_sampling] returns exactly [N] proposals, each with
    one coordinate per dimension of [[T] + S], in non-decreasing time
    order, and they are the drawn points reordered. *)
Theorem homogeneous_sampling_shape T S a :
  let pts := homogeneous_poisson_sampling T S a in
  length pts = a_N a /\
  Forall (fun p => length p = length (T :: S)) pts /\
  Sorted time_le pts /\
  Permutation pts (raw_points T S a).
Proof.
  intros pts.
  assert (Hp : Permutation pts (raw_points T S a)) by apply sort_by_time_perm.
  split; [| split; [| split; [apply sort_by_time_sorted | exact Hp]]].
  - rewrite (Permutation_length Hp). unfold raw_points. rewrite length_map, length_seq.
    reflexivity.
  - apply Forall_forall. intros p Hin. apply (homogeneous_row_length T S a p Hin).
Qed.

(** With raw variates in [[0, 1]] and intervals [lo <= hi], every
    coordinate [i] of every proposal lies in the [i]-th interval of
    [[T] + S]. *)
Theorem homogeneous_sampling_in_box T S a :
  (forall i j, 0 <= a_U a i j <= 1) ->
  Forall (fun iv => fst iv <= snd iv) (T :: S) ->
  forall p, In p (homogeneous_poisson_sampling T S a) ->
  forall i, (i < length (T :: S))%nat ->
  fst (nth i (T :: S) (0, 0)) <= nth i p 0 <= snd (nth i (T :: S) (0, 0)).
Proof.
  intros HU HS p Hin i Hi.
  apply (Permutation_in _ (sort_by_time_perm _)) in Hin.
  apply in_map_iff in Hin. destruct Hin as (j & <- & _).
  rewrite nth_map_seq by exact Hi. cbv zeta. unfold uniform.
  assert (Hiv : fst (nth i (T :: S) (0, 0)) <= snd (nth i (T :: S) (0, 0))).
  { rewrite Forall_forall in HS. apply HS, nth_In, Hi. }
  specialize (HU i j). nra.
Qed.

Lemma homogeneous_sampling_in_box_witness :
  (forall i j, 0 <= a_U (att_one 0) i j <= 1) /\
  Forall (fun iv => fst iv <= snd iv) [(0, 1)] /\
  In [uniform 0 1 (/2)] (homogeneous_poisson_sampling (0, 1) [] (att_one 0)) /\
  0 <= nth 0 [uniform 0 1 (/2)] 0 <= 1.
Proof.
  assert (H1 : forall i j, 0 <= a_U (att_one 0) i j <= 1) by (intros; simpl; lra).
  assert (H2 : Forall (fun iv => fst iv <= snd iv) [(0, 1)])
    by (constructor; [simpl; lra | constructor]).
  assert (H3 : In [uniform 0 1 (/2)] (homogeneous_poisson_sampling (0, 1) [] (att_one 0)))
    by (left; reflexivity).
  split; [exact H1 | split; [exact H2 | split; [exact H3 |]]].
  exact (homogeneous_sampling_in_box (0, 1) [] (att_one 0) H1 H2 _ H3 0%nat ltac:(simpl; lia)).
Defined.

(** ** [_inhomogeneous_poisson_thinning] *)

(** [l1] is obtained from [l2] by deleting elements (order kept). *)
Inductive subseq {A : Type} : list A -> list A -> Prop :=
| subseq_nil : subseq [] []
| subseq_keep x l1 l2 : subseq l1 l2 -> subseq (x :: l1) (x :: l2)
| subseq_skip x l1 l2 : subseq l1 l2 -> subseq l1 (x :: l2).

Lemma subseq_snoc_keep {A : Type} (l1 l2 : list A) x :
  subseq l1 l2 -> subseq (l1 ++ [x]) (l2 ++ [x]).
Proof.
  induction 1; simpl; [constructor; constructor | constructor; exact IHsubseq |].
  apply subseq_skip. exact IHsubseq.
Qed.

Lemma subseq_snoc_skip {A : Type} (l1 l2 : list A) x :
  subseq l1 l2 -> subseq l1 (l2 ++ [x]).
Proof.
  induction 1; simpl; [apply subseq_skip; constructor | constructor; exact IHsubseq |].
  apply subseq_skip. exact IHsubseq.
Qed.

Lemma subseq_length {A : Type} (l1 l2 : list A) : subseq l1 l2 -> (length l1 <= length l2)%nat.
Proof. induction 1; simpl; lia. Qed.

Lemma thin_state_beyond lam homo w verbose Ds i :
  (length homo <= i)%nat ->
  thin_state lam homo w verbose Ds i = thin_state lam homo w verbose Ds (length homo).
Proof.
  intros Hi. unfold thin_state. rewrite !firstn_all2; [reflexivity | |];
    rewrite length_combine, length_seq; lia.
Qed.

(** After [i] iterations the retained points are a subsequence of the
    first [i] candidates. *)
Lemma thin_retained_subseq lam homo w verbose Ds i :
  subseq (retained (thin_state lam homo w verbose Ds i)) (firstn i homo).
Proof.
  induction i as [| i IH].
  - simpl. constructor.
  - destruct (nth_error homo i) as [p |] eqn:Ep.
    + rewrite (thin_state_S _ _ _ _ _ _ _ Ep), (firstn_S_nth _ _ _ Ep).
      destruct (thin_step_retained lam homo verbose Ds
                  (thin_state lam homo w verbose Ds i) i p) as [-> | ->].
      * apply subseq_snoc_skip, IH.
      * apply subseq_snoc_keep, IH.
    + apply nth_error_None in Ep.
      rewrite (thin_state_beyond _ _ _ _ _ (S i)) by lia.
      rewrite (thin_state_beyond _ _ _ _ _ i) in IH by lia.
      rewrite firstn_all2 by lia. rewrite firstn_all2 in IH by lia. exact IH.
Qed.

(** The points returned by a thinning pass are a subsequence of the
    candidates (some candidates deleted, the others in their order), so
    there are at most as many as candidates. *)
Theorem thinning_returns_subsequence lam homo w verbose Ds lg pts :
  inhomogeneous_poisson_thinning lam homo w verbose Ds = (lg, TSome pts) ->
  subseq pts homo /\ (length pts <= length homo)%nat.
Proof.
  rewrite thinning_result. destruct (status _); intros H; try discriminate H.
  injection H as _ <-.
  pose proof (thin_retained_subseq lam homo w verbose Ds (length homo)) as Hs.
  rewrite firstn_all in Hs. split; [exact Hs | apply subseq_length, Hs].
Qed.

Lemma thinning_returns_subsequence_witness :
  let homo := homogeneous_poisson_sampling (0, 1) [(0, 1); (0, 1)] (att_tie 0) in
  inhomogeneous_poisson_thinning lam_const homo 3 false (a_D (att_tie 0)) =
    ([], TSome [p_mid; p_mid]) /\
  subseq [p_mid; p_mid] homo /\ (length [p_mid; p_mid] <= length homo)%nat.
Proof.
  intros homo. pose proof (attempt_thin_tie 0) as H. unfold attempt_thin in H.
  split; [exact H | exact (thinning_returns_subsequence _ _ _ _ _ _ _ H)].
Defined.

(** With [verbose] on and between 2 and 9 proposals, a thinning pass never
    returns points: its result is [None] or an exception. The cause is the
    progress check [i % int(N / 10)], which divides by zero, since
    [int(N / 10) = 0] for such [N]. *)
Theorem verbose_small_pass_never_returns lam homo w Ds lg out :
  (2 <= length homo <= 9)%nat ->
  inhomogeneous_poisson_thinning lam homo w true Ds = (lg, out) ->
  out = TNone \/ out = TRaise.
Proof.
  intros Hn H. rewrite thinning_result in H.
  destruct (status (thin_state lam homo w true Ds (length homo))) eqn:HN;
    injection H as _ <-; [exfalso | left; reflexivity | right; reflexivity].
  assert (H1 : status (thin_state lam homo w true Ds 1) = Running)
    by (apply (thin_all_running lam homo w true Ds HN); lia).
  assert (H2 : status (thin_state lam homo w true Ds 2) = Running)
    by (apply (thin_all_running lam homo w true Ds HN); lia).
  destruct (nth_error homo 1) as [p1 |] eqn:Ep; [| apply nth_error_None in Ep; lia].
  rewrite (thin_state_S _ _ _ _ _ _ _ Ep) in H2.
  assert (Hm : Nat.eqb (Nat.div (length homo) 10) 0 = true)
    by (apply Nat.eqb_eq, Nat.div_small; lia).
  unfold thin_step in H2. rewrite H1 in H2. cbv beta iota zeta in H2.
  destruct (value _ _ _ _ _) as [v |]; [| discriminate H2].
  destruct (Rlt_dec _ _); [discriminate H2 |].
  simpl andb in H2. cbv iota in H2. rewrite Hm in H2. discriminate H2.
Qed.

Lemma verbose_small_pass_never_returns_witness :
  (2 <= length [p_mid; p_mid] <= 9)%nat /\
  inhomogeneous_poisson_thinning lam_const [p_mid; p_mid] 3 true (fun _ => /4) =
    ([MsgSampled 2 3], TRaise) /\
  (TRaise = TNone \/ TRaise = TRaise).
Proof.
  assert (Hn : (2 <= length [p_mid; p_mid] <= 9)%nat) by (simpl; lia).
  assert (H : inhomogeneous_poisson_thinning lam_const [p_mid; p_mid] 3 true (fun _ => /4) =
                ([MsgSampled 2 3], TRaise)).
  { unfold inhomogeneous_poisson_thinning. simpl. unfold thin_step, value, upper_bound.
    simpl. decide_R. simpl. decide_R. reflexivity. }
  split; [exact Hn | split; [exact H |]].
  exact (verbose_small_pass_never_returns _ _ _ _ _ _ Hn H).
Defined.

(** With [verbose] off the log only ever holds the bound-violation line. *)
Lemma thin_quiet_log lam homo w Ds i :
  let s := thin_state lam homo w false Ds i in
  (status s <> ReturnedNone /\ tlog s = []) \/
  (status s = ReturnedNone /\
   exists v, tlog s = [MsgBound v (upper_bound lam)] /\ upper_bound lam < v).
Proof.
  induction i as [| i IH]; intros s.
  - left. split; [discriminate | reflexivity].
  - destruct (nth_error homo i) as [p |] eqn:Ep.
    + subst s. rewrite (thin_state_S _ _ _ _ _ _ _ Ep).
      destruct (status (thin_state lam homo w false Ds i)) eqn:Es.
      * destruct IH as [[_ Hl] | [Hr _]]; [| congruence].
        unfold thin_step. rewrite Es. cbv beta iota zeta.
        destruct (value _ _ _ _ _) as [v |]; [| left; simpl; split; [discriminate | exact Hl]].
        destruct (Rlt_dec _ _) as [Hlt | _].
        -- right. simpl. split; [reflexivity |]. exists v. rewrite Hl. split; [reflexivity | exact Hlt].
        -- left. simpl. split; [discriminate | exact Hl].
      * rewrite thin_step_stopped by (rewrite Es; discriminate). exact IH.
      * rewrite thin_step_stopped by (rewrite Es; discriminate). exact IH.
    + apply nth_error_None in Ep. subst s.
      rewrite (thin_state_beyond _ _ _ _ _ (S i)) by lia.
      rewrite (thin_state_beyond _ _ _ _ _ i) in IH by lia. exact IH.
Qed.

Lemma thin_quiet_result lam homo w Ds lg out :
  inhomogeneous_poisson_thinning lam homo w false Ds = (lg, out) ->
  (out = TNone /\ exists v, lg = [MsgBound v (upper_bound lam)] /\ upper_bound lam < v) \/
  (out <> TNone /\ lg = []).
Proof.
  rewrite thinning_result. intros H.
  destruct (thin_quiet_log lam homo w Ds (length homo)) as [[Hs Hl] | [Hs Hl]];
    destruct (status _); try congruence; injection H as <- <-.
  - right. split; [discriminate | rewrite Hl; reflexivity].
  - right. split; [discriminate | exact Hl].
  - left. split; [reflexivity | exact Hl].
Qed.

(** With [verbose] off a thinning pass writes nothing, except the single
    line reporting a bound violation when it returns [None]. *)
Theorem thinning_quiet_log lam homo w Ds lg out :
  inhomogeneous_poisson_thinning lam homo w false Ds = (lg, out) ->
  (out = TNone /\ exists v, lg = [MsgBound v (upper_bound lam)] /\ upper_bound lam < v) \/
  (out <> TNone /\ lg = []).
Proof. apply thin_quiet_result. Qed.

Lemma thinning_quiet_log_witness :
  inhomogeneous_poisson_thinning lam_over [[uniform 0 1 (/2)]] 1 false (fun _ => /4) =
    ([MsgBound 2 1], TNone) /\
  ((TNone = TNone /\ exists v, [MsgBound 2 1] = [MsgBound v (upper_bound lam_over)] /\
                               upper_bound lam_over < v) \/
   (TNone <> TNone /\ [MsgBound 2 1] = [])).
Proof.
  assert (H : inhomogeneous_poisson_thinning lam_over [[uniform 0 1 (/2)]] 1 false (fun _ => /4)
                = ([MsgBound 2 1], TNone)).
  { unfold inhomogeneous_poisson_thinning. simpl. unfold thin_step, value, upper_bound.
    simpl. decide_R. reflexivity. }
  split; [exact H | exact (thinning_quiet_log _ _ _ _ _ _ H)].
Defined.

(** ** [generate]: what it prints *)

Definition is_seq (m : Msg) : bool :=
  match m with MsgSequence _ => true | _ => false end.

Lemma gen_loop_quiet_log lam T S batch_size min_n_points att :
  forall fuel k b max_len points_list sizes lg max_len' points_list' sizes',
  gen_loop lam T S batch_size min_n_points false att fuel k b max_len points_list sizes
    = (lg, LDone max_len' points_list' sizes') ->
  filter is_seq lg = map MsgSequence (seq (Datatypes.S b) (batch_size - b)) /\
  Forall (fun m => is_seq m = true \/
                   exists v, m = MsgBound v (upper_bound lam) /\ upper_bound lam < v) lg.
Proof.
  induction fuel as [| fuel IH];
    intros k b max_len points_list sizes lg max_len' points_list' sizes' H.
  - discriminate H.
  - assert (Hq : forall lg0 out, attempt_thin lam T S false att k = (lg0, out) ->
              filter is_seq lg0 = [] /\
              Forall (fun m => is_seq m = true \/
                   exists v, m = MsgBound v (upper_bound lam) /\ upper_bound lam < v) lg0 /\
              (out <> TNone -> lg0 = [])).
    { intros lg0 out Ht. unfold attempt_thin in Ht.
      destruct (thin_quiet_result _ _ _ _ _ _ Ht) as [[-> (v & -> & Hv)] | [Ho ->]].
      - split; [reflexivity | split; [| intros Hc; contradiction Hc; reflexivity]].
        constructor; [right; exists v; auto | constructor].
      - split; [reflexivity | split; [constructor | intros _; reflexivity]]. }
    destruct (Nat.ltb b batch_size) eqn:Hb.
    + destruct (attempt_thin lam T S false att k) as [lg0 out] eqn:Ht.
      destruct (Hq lg0 out eq_refl) as (Hf0 & Hm0 & Hn0).
      destruct out as [| pts |].
      * rewrite (gen_loop_discard _ _ _ _ _ _ _ _ _ _ _ _ _ _ _ Hb Ht (or_introl eq_refl)) in H.
        destruct (gen_loop _ _ _ _ _ _ _ fuel _ _ _ _ _) as [lg' r] eqn:E.
        injection H as <- ->. destruct (IH _ _ _ _ _ _ _ _ _ E) as [Hf Hm].
        rewrite filter_app, Hf0, Hf. split; [reflexivity | apply Forall_app; auto].
      * destruct (Nat.ltb (length pts) min_n_points) eqn:Hl.
        -- rewrite (gen_loop_discard _ _ _ _ _ _ _ _ _ _ _ _ _ _ _ Hb Ht
                      (or_intror (ex_intro _ pts (conj eq_refl Hl)))) in H.
           destruct (gen_loop _ _ _ _ _ _ _ fuel _ _ _ _ _) as [lg' r] eqn:E.
           injection H as <- ->. destruct (IH _ _ _ _ _ _ _ _ _ E) as [Hf Hm].
           rewrite filter_app, Hf0, Hf. split; [reflexivity | apply Forall_app; auto].
        -- rewrite (gen_loop_record _ _ _ _ _ _ _ _ _ _ _ _ _ _ _ Hb Ht Hl) in H.
           cbv zeta in H.
           destruct (gen_loop _ _ _ _ _ _ _ fuel _ _ _ _ _) as [lg' r] eqn:E.
           injection H as <- ->. destruct (IH _ _ _ _ _ _ _ _ _ E) as [Hf Hm].
           rewrite (Hn0 ltac:(discriminate)). simpl. rewrite Hf.
           apply Nat.ltb_lt in Hb.
           replace (batch_size - b)%nat with (Datatypes.S (batch_size - Datatypes.S b)) by lia.
           split; [reflexivity |]. constructor; [left; reflexivity | exact Hm].
      * rewrite (gen_loop_raise _ _ _ _ _ _ _ _ _ _ _ _ _ _ Hb Ht) in H. discriminate H.
    + rewrite gen_loop_full in H by exact Hb. injection H as <- _ _ _.
      apply Nat.ltb_ge in Hb. replace (batch_size - b)%nat with 0%nat by lia.
      split; [reflexivity | constructor].
Qed.

(** With [verbose] off, a successful [generate] prints the lines
    [1-th sequence is generated.] up to [batch_size-th ...] in this order,
    and otherwise only the lines reporting bound violations. *)
Theorem generate_quiet_log lam T S batch_size min_n_points att fuel lg data sizes :
  generate lam T S batch_size min_n_points false att fuel = (lg, GOk data sizes) ->
  filter is_seq lg = map MsgSequence (seq 1 batch_size) /\
  Forall (fun m => is_seq m = true \/
                   exists v, m = MsgBound v (upper_bound lam) /\ upper_bound lam < v) lg.
Proof.
  unfold generate. intros H.
  destruct (gen_loop lam T S batch_size min_n_points false att fuel 0 0 0 [] [])
    as [lg0 [max_len points_list sizes0 | |]] eqn:E; try discriminate H.
  destruct (pack (length (T :: S)) max_len points_list); [| discriminate H].
  injection H as <- _ _.
  destruct (gen_loop_quiet_log _ _ _ _ _ _ _ _ _ _ _ _ _ _ _ _ E) as [Hf Hm].
  rewrite Nat.sub_0_r in Hf. split; [exact Hf | exact Hm].
Qed.

Lemma generate_quiet_log_witness :
  generate lam_const (0, 1) [(0, 1); (0, 1)] 1 1 false att_tie 5 =
    ([MsgSequence 1], GOk [[p_mid; p_mid]] [2%nat]) /\
  filter is_seq [MsgSequence 1] = map MsgSequence (seq 1 1).
Proof.
  split; [exact generate_tie |].
  exact (proj1 (generate_quiet_log _ _ _ _ _ _ _ _ _ _ generate_tie)).
Defined.

(** ** Kernels: splitting the history *)

Lemma sum_app (l1 l2 : list R) :
  fold_right Rplus 0 (l1 ++ l2) = fold_right Rplus 0 l1 + fold_right Rplus 0 l2.
Proof. induction l1 as [| x l1 IH]; simpl; [ring | rewrite IH; ring]. Qed.

Lemma combine_app {A B : Type} (a1 a2 : list A) (b1 b2 : list B) :
  length a1 = length b1 -> combine (a1 ++ a2) (b1 ++ b2) = combine a1 b1 ++ combine a2 b2.
Proof.
  revert b1. induction a1 as [| x a1 IH]; intros [| y b1] H; simpl in *; try discriminate;
    [reflexivity |]. f_equal. apply IH. lia.
Qed.

Lemma deltas_app t x y h1 h2 :
  deltas t x y (h1 ++ h2) =
  match deltas t x y h1, deltas t x y h2 with
  | Some d1, Some d2 => Some (d1 ++ d2)
  | _, _ => None
  end.
Proof.
  induction h1 as [| [ht hs] h1 IH]; simpl.
  - destruct (deltas t x y h2); reflexivity.
  - rewrite IH. destruct (xy hs) as [[hx hy] |];
      destruct (deltas t x y h1), (deltas t x y h2); reflexivity.
Qed.

Lemma kernel_deltas_app t s ht1 hs1 ht2 hs2 ds :
  length ht1 = length hs1 ->
  kernel_deltas t s (ht1 ++ ht2) (hs1 ++ hs2) = Some ds ->
  exists d1 d2, kernel_deltas t s ht1 hs1 = Some d1 /\ kernel_deltas t s ht2 hs2 = Some d2 /\
                ds = d1 ++ d2.
Proof.
  intros Hl. unfold kernel_deltas. destruct (xy s) as [[x y] |]; [| discriminate].
  rewrite combine_app by exact Hl. rewrite deltas_app.
  destruct (deltas t x y (combine ht1 hs1)) as [d1 |]; [| discriminate].
  destruct (deltas t x y (combine ht2 hs2)) as [d2 |]; [| discriminate].
  intros H. injection H as <-. exists d1, d2. auto.
Qed.

(** The running sum of the mixture loop is the weighted sum of the
    component sums. *)
Lemma mixture_loop_sum {A : Type} (f : A -> Delta -> R) (ds : list Delta)
  (w : list R) (gdks : list A) (ks : list nat) (acc v : NpVal) :
  (acc = NScalar 0 \/ exists a, acc = NArr a /\ length a = length ds) ->
  mixture_loop (fun g => Some (NArr (map (f g) ds))) w gdks ks acc = Some v ->
  np_sum v = np_sum acc +
    fold_right Rplus 0
      (map (fun k => nth k w 0 *
                     match nth_error gdks k with
                     | Some g => fold_right Rplus 0 (map (f g) ds)
                     | None => 0
                     end) ks).
Proof.
  revert acc. induction ks as [| k ks IH]; simpl; intros acc Hacc H.
  - injection H as <-. ring.
  - destruct (nth_error w k) as [wk |] eqn:Ew; [| discriminate].
    destruct (nth_error gdks k) as [g |] eqn:Eg; [| discriminate].
    assert (Hl : length (map (f g) ds) = length ds) by apply length_map.
    assert (Hacc' : acc = NScalar 0 \/ exists a, acc = NArr a /\ length a = length (map (f g) ds))
      by (rewrite Hl; exact Hacc).
    destruct (proj2 (mixture_add_at acc wk _ 0 Hacc')) as (a' & Ha' & Hla').
    rewrite (IH _ (or_intror (ex_intro _ a' (conj Ha' (eq_trans Hla' Hl)))) H).
    rewrite (nth_error_nth w k 0 Ew).
    assert (Hs : np_sum (np_add acc (np_scale wk (NArr (map (f g) ds)))) =
                 np_sum acc + wk * fold_right Rplus 0 (map (f g) ds)).
    { generalize (map (f g) ds) (length_map (f g) ds). intros l Hll.
      destruct Hacc as [-> | (a & -> & Ha)]; simpl.
      - rewrite map_map. clear. induction l as [| x l IH]; simpl; [ring | rewrite IH; ring].
      - assert (Hlen : length a = length l) by lia. clear - Hlen.
        revert l Hlen. induction a as [| x a IH]; intros [| y l] Hlen; simpl in *;
          try discriminate; [ring |]. rewrite IH by lia. ring. }
    rewrite Hs. ring.
Qed.

Lemma mixture_loop_defined {A : Type} (F : A -> option NpVal) (w : list R) (gdks : list A)
  (ks : list nat) (acc : NpVal) :
  (forall g, exists v, F g = Some v) ->
  (forall k, In k ks -> exists wk g, nth_error w k = Some wk /\ nth_error gdks k = Some g) ->
  exists v, mixture_loop F w gdks ks acc = Some v.
Proof.
  intros HF. revert acc. induction ks as [| k ks IH]; simpl; intros acc Hk.
  - eexists. reflexivity.
  - destruct (Hk k (or_introl eq_refl)) as (wk & g & -> & ->).
    destruct (HF g) as [v ->]. apply IH. intros k' Hk'. apply Hk. right. exact Hk'.
Qed.

Lemma mixture_loop_ext {A : Type} (F G : A -> option NpVal) w gdks ks acc :
  (forall g, F g = G g) -> mixture_loop F w gdks ks acc = mixture_loop G w gdks ks acc.
Proof.
  intros H. revert acc. induction ks as [| k ks IH]; simpl; intros acc; [reflexivity |].
  destruct (nth_error w k) as [wk |], (nth_error gdks k) as [g |]; try reflexivity.
  rewrite H. destruct (G g); [apply IH | reflexivity].
Qed.

(** A mixture over the two parts of a split history. *)
Lemma mixture_split {A : Type} (f : A -> Delta -> R) t s ht1 hs1 ht2 hs2 w gdks K v :
  length ht1 = length hs1 ->
  mixture_loop (fun g => vectorised (f g) t s (ht1 ++ ht2) (hs1 ++ hs2)) w gdks (seq 0 K)
    (NScalar 0) = Some v ->
  exists v1 v2,
    mixture_loop (fun g => vectorised (f g) t s ht1 hs1) w gdks (seq 0 K) (NScalar 0)
      = Some v1 /\
    mixture_loop (fun g => vectorised (f g) t s ht2 hs2) w gdks (seq 0 K) (NScalar 0)
      = Some v2 /\
    np_sum v = np_sum v1 + np_sum v2.
Proof.
  intros Hl H. unfold vectorised in *.
  destruct (kernel_deltas t s (ht1 ++ ht2) (hs1 ++ hs2)) as [ds |] eqn:E.
  - destruct (kernel_deltas_app _ _ _ _ _ _ _ Hl E) as (d1 & d2 & E1 & E2 & ->).
    rewrite E1, E2.
    destruct (mixture_loop_at f (d1 ++ d2) w gdks _ _ v (or_introl eq_refl) H) as [Hin _].
    destruct (mixture_loop_defined (fun g => Some (NArr (map (f g) d1))) w gdks (seq 0 K)
                (NScalar 0) (fun g => ex_intro _ _ eq_refl) Hin) as [v1 H1].
    destruct (mixture_loop_defined (fun g => Some (NArr (map (f g) d2))) w gdks (seq 0 K)
                (NScalar 0) (fun g => ex_intro _ _ eq_refl) Hin) as [v2 H2].
    exists v1, v2. split; [exact H1 | split; [exact H2 |]].
    rewrite (mixture_loop_sum _ _ _ _ _ _ _ (or_introl eq_refl) H),
      (mixture_loop_sum _ _ _ _ _ _ _ (or_introl eq_refl) H1),
      (mixture_loop_sum _ _ _ _ _ _ _ (or_introl eq_refl) H2).
    simpl. rewrite !Rplus_0_l. clear. induction (seq 0 K) as [| k ks IH]; simpl; [ring |].
    rewrite IH. destruct (nth_error gdks k); [rewrite map_app, sum_app |]; ring.
  - destruct (mixture_loop_none w gdks _ _ _ H) as [HK ->].
    assert (K = 0%nat) as -> by (rewrite <- (length_seq K 0), HK; reflexivity).
    exists (NScalar 0), (NScalar 0). simpl. split; [reflexivity | split; [reflexivity | ring]].
Qed.

Lemma vectorised_split (f : Delta -> R) t s ht1 hs1 ht2 hs2 v :
  length ht1 = length hs1 ->
  vectorised f t s (ht1 ++ ht2) (hs1 ++ hs2) = Some v ->
  exists v1 v2, vectorised f t s ht1 hs1 = Some v1 /\ vectorised f t s ht2 hs2 = Some v2 /\
                np_sum v = np_sum v1 + np_sum v2.
Proof.
  intros Hl H. unfold vectorised in *.
  destruct (kernel_deltas t s (ht1 ++ ht2) (hs1 ++ hs2)) as [ds |] eqn:E; [| discriminate].
  destruct (kernel_deltas_app _ _ _ _ _ _ _ Hl E) as (d1 & d2 & E1 & E2 & ->).
  rewrite E1, E2. injection H as <-. do 2 eexists. split; [reflexivity | split; [reflexivity |]].
  simpl. rewrite map_app. apply sum_app.
Qed.

Lemma nu_split k t s ht1 hs1 ht2 hs2 v :
  length ht1 = length hs1 ->
  nu k t s (ht1 ++ ht2) (hs1 ++ hs2) = Some v ->
  exists v1 v2, nu k t s ht1 hs1 = Some v1 /\ nu k t s ht2 hs2 = Some v2 /\
                np_sum v = np_sum v1 + np_sum v2.
Proof.
  intros Hl. destruct k; simpl; intros H;
    first [ exact (vectorised_split _ _ _ _ _ _ _ _ Hl H)
          | exact (mixture_split _ _ _ _ _ _ _ _ _ _ _ Hl H) ].
Qed.

Lemma sum_map_zero (g : nat -> R) (ks : list nat) :
  (forall k, g k = 0) -> fold_right Rplus 0 (map g ks) = 0.
Proof. intros H. induction ks as [| k ks IH]; simpl; [reflexivity | rewrite H, IH; ring]. Qed.

(** A kernel evaluated on an empty history contributes nothing. *)
Lemma nu_nil_sum k t s v : nu k t s [] [] = Some v -> np_sum v = 0.
Proof.
  intros H.
  assert (Hv : forall f v, vectorised f t s [] [] = Some v -> np_sum v = 0).
  { intros f v' Hv. unfold vectorised, kernel_deltas in Hv. simpl in Hv.
    destruct (xy s) as [[x y] |]; [| discriminate]. injection Hv as <-. reflexivity. }
  assert (Hm : forall (A : Type) (f : A -> Delta -> R) w gdks K v,
             mixture_loop (fun g => vectorised (f g) t s [] []) w gdks (seq 0 K) (NScalar 0)
             = Some v -> np_sum v = 0).
  { intros A f w gdks K v' Hmv.
    unfold vectorised, kernel_deltas in Hmv. simpl in Hmv.
    destruct (xy s) as [[x y] |].
    - rewrite (mixture_loop_sum f [] w gdks _ _ _ (or_introl eq_refl) Hmv). simpl np_sum.
      rewrite sum_map_zero; [ring |]. intros j. destruct (nth_error gdks j); simpl; ring.
    - destruct (mixture_loop_none w gdks _ _ _ Hmv) as [_ ->]. reflexivity. }
  destruct k; simpl in H; first [exact (Hv _ _ H) | exact (Hm _ _ _ _ _ _ H)].
Qed.

Lemma value_excess lam t ht s hs v :
  value lam t ht s hs = Some v ->
  (ht = [] /\ v = lam_mu lam) \/
  (exists nv, nu (lam_kernel lam) t s ht hs = Some nv /\ v = lam_mu lam + np_sum nv).
Proof.
  unfold value. destruct ht as [| h ht]; simpl; intros H.
  - left. injection H as <-. auto.
  - right. destruct (nu _ _ _ _ _) as [nv |]; [| discriminate]. injection H as <-.
    exists nv. auto.
Qed.

(** The intensity is additive over the history: when the history is split
    in two parts (as columns of one array), the excess of the intensity
    over the background rate [mu] is the sum of the excesses computed with
    each part alone (which both evaluate without error). *)
Theorem value_history_split lam t s ht1 hs1 ht2 hs2 v :
  length ht1 = length hs1 -> length ht2 = length hs2 ->
  value lam t (ht1 ++ ht2) s (hs1 ++ hs2) = Some v ->
  exists v1 v2, value lam t ht1 s hs1 = Some v1 /\ value lam t ht2 s hs2 = Some v2 /\
                v - lam_mu lam = (v1 - lam_mu lam) + (v2 - lam_mu lam).
Proof.
  intros Hl1 Hl2 H.
  destruct (value_excess _ _ _ _ _ _ H) as [[Hn ->] | (nv & Hnu & ->)].
  - apply app_eq_nil in Hn. destruct Hn as [-> ->].
    destruct hs1; [| discriminate]. destruct hs2; [| discriminate].
    exists (lam_mu lam), (lam_mu lam). split; [reflexivity | split; [reflexivity | ring]].
  - destruct (nu_split _ _ _ _ _ _ _ _ Hl1 Hnu) as (v1 & v2 & H1 & H2 & Hs).
    assert (Hpart : forall ht hs vi, length ht = length hs -> nu (lam_kernel lam) t s ht hs = Some vi ->
              value lam t ht s hs = Some (lam_mu lam + np_sum vi)).
    { intros [| h ht] hs vi Hl Hvi.
      - destruct hs; [| discriminate]. rewrite (nu_nil_sum _ _ _ _ Hvi).
        unfold value. simpl. f_equal. ring.
      - unfold value. simpl. rewrite Hvi. reflexivity. }
    exists (lam_mu lam + np_sum v1), (lam_mu lam + np_sum v2).
    split; [exact (Hpart _ _ _ Hl1 H1) | split; [exact (Hpart _ _ _ Hl2 H2) |]].
    rewrite Hs. ring.
Qed.

Lemma value_history_split_witness :
  length [0] = length [[0; 0]] /\ length [0] = length [[1; 1]] /\
  value lam_flat 1 ([0] ++ [0]) [0; 0] ([[0; 0]] ++ [[1; 1]]) =
    Some (1 + (std_val (mkStd 1 1 1 1) (mkDelta (1 - 0) (0 - 0) (0 - 0) 0 0) +
              (std_val (mkStd 1 1 1 1) (mkDelta (1 - 0) (0 - 1) (0 - 1) 1 1) + 0))) /\
  exists v1 v2, value lam_flat 1 [0] [0; 0] [[0; 0]] = Some v1 /\
    value lam_flat 1 [0] [0; 0] [[1; 1]] = Some v2 /\
    (1 + (std_val (mkStd 1 1 1 1) (mkDelta (1 - 0) (0 - 0) (0 - 0) 0 0) +
          (std_val (mkStd 1 1 1 1) (mkDelta (1 - 0) (0 - 1) (0 - 1) 1 1) + 0)))
      - lam_mu lam_flat = (v1 - lam_mu lam_flat) + (v2 - lam_mu lam_flat).
Proof.
  assert (H : value lam_flat 1 ([0] ++ [0]) [0; 0] ([[0; 0]] ++ [[1; 1]]) =
    Some (1 + (std_val (mkStd 1 1 1 1) (mkDelta (1 - 0) (0 - 0) (0 - 0) 0 0) +
              (std_val (mkStd 1 1 1 1) (mkDelta (1 - 0) (0 - 1) (0 - 1) 1 1) + 0))))
    by reflexivity.
  split; [reflexivity | split; [reflexivity | split; [exact H |]]].
  exact (value_history_split lam_flat 1 [0; 0] [0] [[0; 0]] [0] [[1; 1]] _ eq_refl eq_refl H).
Defined.

(** ** Kernels: shifting time and space *)

(** [s + (a, b)] on the two spatial coordinates a kernel reads. *)
Definition shift_loc (a b : R) (l : list R) : list R :=
  match l with
  | x :: y :: r => (x + a) :: (y + b) :: r
  | _ => l
  end.

Definition shift_delta (a b : R) (d : Delta) : Delta :=
  mkDelta (d_t d) (d_x d) (d_y d) (h_x d + a) (h_y d + b).

Lemma combine_map_both {A B C D : Type} (f : A -> C) (g : B -> D) (l1 : list A) (l2 : list B) :
  combine (map f l1) (map g l2) = map (fun p => (f (fst p), g (snd p))) (combine l1 l2).
Proof.
  revert l2. induction l1 as [| x l1 IH]; intros [| y l2]; simpl; try reflexivity.
  rewrite IH. reflexivity.
Qed.

Lemma deltas_shift t x y c a b his :
  deltas (t + c) (x + a) (y + b) (map (fun p => (fst p + c, shift_loc a b (snd p))) his) =
  option_map (map (shift_delta a b)) (deltas t x y his).
Proof.
  induction his as [| [ht hs] his IH]; simpl; [reflexivity |].
  rewrite IH. destruct hs as [| hx [| hy r]]; simpl; try reflexivity.
  destruct (deltas t x y his); simpl; [| reflexivity].
  unfold shift_delta. simpl. do 3 f_equal; ring.
Qed.

Lemma kernel_deltas_shift t s ht hs c a b :
  kernel_deltas (t + c) (shift_loc a b s) (map (fun h => h + c) ht) (map (shift_loc a b) hs) =
  option_map (map (shift_delta a b)) (kernel_deltas t s ht hs).
Proof.
  unfold kernel_deltas. destruct s as [| x [| y r]]; simpl; try reflexivity.
  rewrite combine_map_both. apply deltas_shift.
Qed.

Lemma vectorised_shift (f : Delta -> R) t s ht hs c a b :
  (forall d, f (shift_delta a b d) = f d) ->
  vectorised f (t + c) (shift_loc a b s) (map (fun h => h + c) ht) (map (shift_loc a b) hs) =
  vectorised f t s ht hs.
Proof.
  intros Hf. unfold vectorised. rewrite kernel_deltas_shift.
  destruct (kernel_deltas t s ht hs); simpl; [| reflexivity].
  rewrite map_map. f_equal. f_equal. apply map_ext. exact Hf.
Qed.

(** The intensity is stationary: shifting the candidate and all
    historical events by the same time [c] leaves it unchanged, and so
    does shifting their locations by the same [(a, b)] for the kernels
    whose parameters do not depend on the location (the spatially varying
    ones are covered for time shifts, [a = b = 0]). *)
Theorem value_shift_invariant lam t s ht hs c a b :
  match lam_kernel lam with
  | SpatialVariantGaussianDiffusionKernel _
  | SpatialVariantGaussianMixtureDiffusionKernel _ _ _ => a = 0 /\ b = 0
  | _ => True
  end ->
  value lam (t + c) (map (fun h => h + c) ht) (shift_loc a b s) (map (shift_loc a b) hs) =
  value lam t ht s hs.
Proof.
  intros Hab. unfold value. rewrite length_map.
  destruct (Nat.ltb 0 (length ht)); [| reflexivity].
  assert (Hk : nu (lam_kernel lam) (t + c) (shift_loc a b s) (map (fun h => h + c) ht)
                 (map (shift_loc a b) hs) = nu (lam_kernel lam) t s ht hs).
  { destruct (lam_kernel lam) as [p | g | K w gdks | g | K w gdks]; simpl.
    - apply vectorised_shift. intros [dt dx dy hx hy]. destruct p. reflexivity.
    - apply vectorised_shift. intros [dt dx dy hx hy]. reflexivity.
    - apply mixture_loop_ext. intros g. apply vectorised_shift.
      intros [dt dx dy hx hy]. reflexivity.
    - destruct Hab as [-> ->]. apply vectorised_shift.
      intros [dt dx dy hx hy]. unfold shift_delta. simpl. rewrite !Rplus_0_r. reflexivity.
    - destruct Hab as [-> ->]. apply mixture_loop_ext. intros g. apply vectorised_shift.
      intros [dt dx dy hx hy]. unfold shift_delta. simpl. rewrite !Rplus_0_r. reflexivity. }
  rewrite Hk. reflexivity.
Qed.

Lemma value_shift_invariant_witness :
  True /\
  value lam_flat (1 + 2) (map (fun h => h + 2) [0]) (shift_loc 3 4 [0; 0])
    (map (shift_loc 3 4) [[0; 0]]) = value lam_flat 1 [0] [0; 0] [[0; 0]].
Proof.
  split; [exact I |].
  exact (value_shift_invariant lam_flat 1 [0; 0] [0] [[0; 0]] 2 3 4 I).
Defined.

(** ** Mixture kernels: weights are read at evaluation time *)

Lemma components_length {X Y : Type} (mk : X -> X -> X -> X -> X -> Y) (n a : nat)
  (l1 l2 l3 l4 l5 : list X) gs :
  components mk (seq a n) l1 l2 l3 l4 l5 = Some gs -> length gs = n.
Proof.
  revert a gs. induction n as [| n IH]; simpl; intros a gs H.
  - injection H as <-. reflexivity.
  - destruct (nth_error l1 a), (nth_error l2 a), (nth_error l3 a), (nth_error l4 a),
      (nth_error l5 a); try discriminate H.
    destruct (components mk (seq (S a) n) l1 l2 l3 l4 l5) as [rest |] eqn:E; [| discriminate H].
    injection H as <-. simpl. rewrite (IH _ _ E). reflexivity.
Qed.

Lemma mixture_loop_none_iff {A : Type} (F : A -> option NpVal) (w : list R) (gdks : list A)
  (ks : list nat) (acc : NpVal) :
  (forall g, exists v, F g = Some v) ->
  mixture_loop F w gdks ks acc = None <->
  exists k, In k ks /\ (nth_error w k = None \/ nth_error gdks k = None).
Proof.
  intros HF. revert acc. induction ks as [| k ks IH]; simpl; intros acc.
  - split; [discriminate | intros (k & [] & _)].
  - destruct (nth_error w k) as [wk |] eqn:Ew; destruct (nth_error gdks k) as [g |] eqn:Eg.
    + destruct (HF g) as [v Hv]. rewrite Hv. rewrite IH. split.
      * intros (k' & Hk' & Hn). exists k'. auto.
      * intros (k' & [<- | Hk'] & Hn); [rewrite Ew, Eg in Hn; destruct Hn; discriminate |].
        exists k'. auto.
    + split; [intros _; exists k; auto | reflexivity].
    + split; [intros _; exists k; auto | reflexivity].
    + split; [intros _; exists k; auto | reflexivity].
Qed.

Lemma mixture_value_none {A : Type} (f : A -> Delta -> R) (gdks : list A) (n : nat)
  (w : list R) t s ht hs :
  length gdks = n -> kernel_deltas t s ht hs <> None ->
  mixture_loop (fun g => vectorised (f g) t s ht hs) w gdks (seq 0 n) (NScalar 0) = None <->
  (length w < n)%nat.
Proof.
  intros Hg Hd. rewrite mixture_loop_none_iff.
  - split.
    + intros (k & Hk & [Hw | Hgk]); apply in_seq in Hk; apply nth_error_None in Hw || apply nth_error_None in Hgk; lia.
    + intros Hw. exists (length w). split; [apply in_seq; lia | left; apply nth_error_None; lia].
  - intros g. unfold vectorised. destruct (kernel_deltas t s ht hs); [eexists; reflexivity |].
    contradiction Hd. reflexivity.
Qed.

(** The mixture constructors never look at [w]: a kernel built with fewer
    weights than components evaluates, for a non-empty history of
    well-formed locations, to an IndexError ([w[k]]) at every call, and one
    built with enough weights always evaluates. *)
Theorem mixture_weights_checked_at_evaluation :
  (forall n_comp w mu_x mu_y sigma_x sigma_y rho beta C k mu bar t s ht hs,
     GaussianMixtureDiffusionKernel_init n_comp w mu_x mu_y sigma_x sigma_y rho beta C = Some k ->
     kernel_deltas t s ht hs <> None -> ht <> [] ->
     value (mkLam mu k bar) t ht s hs = None <-> (length w < n_comp)%nat) /\
  (forall n_comp w f_mu_x f_mu_y f_sigma_x f_sigma_y f_rho beta C k mu bar t s ht hs,
     SpatialVariantGaussianMixtureDiffusionKernel_init n_comp w
       f_mu_x f_mu_y f_sigma_x f_sigma_y f_rho beta C = Some k ->
     kernel_deltas t s ht hs <> None -> ht <> [] ->
     value (mkLam mu k bar) t ht s hs = None <-> (length w < n_comp)%nat).
Proof.
  assert (Hv : forall k mu bar t s ht hs, ht <> [] ->
             value (mkLam mu k bar) t ht s hs = None <-> nu k t s ht hs = None).
  { intros k mu bar t s [| h ht] hs Hn; [contradiction Hn; reflexivity |].
    unfold value. simpl. destruct (nu k t s (h :: ht) hs); split; congruence. }
  split.
  - intros n_comp w mu_x mu_y sigma_x sigma_y rho beta C k mu bar t s ht hs Hk Hd Hn.
    unfold GaussianMixtureDiffusionKernel_init in Hk.
    destruct (components _ _ _ _ _ _ _) as [gdks |] eqn:E; [| discriminate Hk].
    injection Hk as <-. rewrite Hv by exact Hn. simpl.
    apply mixture_value_none; [exact (components_length _ _ _ _ _ _ _ _ _ E) | exact Hd].
  - intros n_comp w f_mu_x f_mu_y f_sigma_x f_sigma_y f_rho beta C k mu bar t s ht hs Hk Hd Hn.
    unfold SpatialVariantGaussianMixtureDiffusionKernel_init in Hk.
    destruct (components _ _ _ _ _ _ _) as [gdks |] eqn:E; [| discriminate Hk].
    injection Hk as <-. rewrite Hv by exact Hn. simpl.
    apply mixture_value_none; [exact (components_length _ _ _ _ _ _ _ _ _ E) | exact Hd].
Qed.

Lemma mixture_weights_checked_at_evaluation_witness :
  GaussianMixtureDiffusionKernel_init 2 [1] [0; 0] [0; 0] [1; 1] [1; 1] [0; 0] 1 1 =
    Some (GaussianMixtureDiffusionKernel 2 [1] [default_gauss; default_gauss]) /\
  kernel_deltas 1 [0; 0] [0] [[0; 0]] <> None /\ [0] <> [] /\
  value (mkLam 1 (GaussianMixtureDiffusionKernel 2 [1] [default_gauss; default_gauss]) 1)
    1 [0] [0; 0] [[0; 0]] = None.
Proof.
  assert (H1 : GaussianMixtureDiffusionKernel_init 2 [1] [0; 0] [0; 0] [1; 1] [1; 1] [0; 0] 1 1 =
                 Some (GaussianMixtureDiffusionKernel 2 [1] [default_gauss; default_gauss]))
    by reflexivity.
  assert (H2 : kernel_deltas 1 [0; 0] [0] [[0; 0]] <> None) by discriminate.
  assert (H3 : [0] <> []) by discriminate.
  split; [exact H1 | split; [exact H2 | split; [exact H3 |]]].
  apply (proj2 (proj1 mixture_weights_checked_at_evaluation _ _ _ _ _ _ _ _ _ _ 1 1 _ _ _ _
                  H1 H2 H3)).
  simpl. lia.
Defined.

(** ** A mixture with no component: independent thinning *)

Section ZeroComponents.
Variables (mu bar : R) (w : list R) (gdks : list GaussianParams) (homo : list (list R))
  (wd : nat) (Ds : nat -> R).

Let lam0 := mkLam mu (GaussianMixtureDiffusionKernel 0 w gdks) bar.
Let keep (ip : nat * list R) : bool := if Rle_dec (Ds (fst ip) * bar) mu then true else false.

Lemma zero_components_value t ht s hs : exists v, value lam0 t ht s hs = Some v /\ v = mu.
Proof.
  unfold value. destruct (Nat.ltb 0 (length ht)); simpl; eexists; split; try reflexivity; ring.
Qed.

Lemma zero_components_state i :
  (i <= length homo)%nat -> mu <= bar ->
  thin_state lam0 homo wd false Ds i =
  mkTState (map snd (filter keep (firstn i (combine (seq 0 (length homo)) homo)))) [] Running.
Proof.
  intros Hi Hmu. induction i as [| i IH]; [reflexivity |].
  destruct (nth_error homo i) as [p |] eqn:Ep; [| apply nth_error_None in Ep; lia].
  rewrite (thin_state_S _ _ _ _ _ _ _ Ep), IH by lia.
  rewrite (firstn_S_nth _ i (i, p)) by (rewrite nth_error_combine_seq, Ep; reflexivity).
  rewrite filter_app, map_app. unfold thin_step. simpl status. cbv beta iota zeta.
  destruct (zero_components_value (time p)
              (map time (map snd (filter keep (firstn i (combine (seq 0 (length homo)) homo)))))
              (loc p)
              (map loc (map snd (filter keep (firstn i (combine (seq 0 (length homo)) homo))))))
    as (v & Hv & ->).
  simpl retained. rewrite Hv. unfold upper_bound. simpl lam_maximum.
  destruct (Rlt_dec bar mu) as [Hlt | _]; [lra |]. simpl andb. cbv iota.
  change (filter keep [(i, p)])
    with (if (if Rle_dec (Ds i * bar) mu then true else false) then [(i, p)] else []).
  destruct (Rle_dec (Ds i * bar) mu); cbn [map snd tlog]; [reflexivity |].
  rewrite app_nil_r. reflexivity.
Qed.

End ZeroComponents.

(** A mixture kernel with [n_comp = 0] makes the intensity the constant
    [mu]; with [verbose] off and [mu] at most the bound, thinning then keeps
    exactly the candidates [i] with [D_i * upper_bound <= mu], each
    independently of the others, and writes nothing; with [mu] above the
    bound, a non-empty pass returns [None] at its first candidate. *)
Theorem zero_component_mixture_thins_independently mu bar w gdks homo wd Ds :
  let lam0 := mkLam mu (GaussianMixtureDiffusionKernel 0 w gdks) bar in
  (mu <= bar ->
   inhomogeneous_poisson_thinning lam0 homo wd false Ds =
   ([], TSome (map snd (filter (fun ip => if Rle_dec (Ds (fst ip) * bar) mu then true else false)
                          (combine (seq 0 (length homo)) homo))))) /\
  (bar < mu -> homo <> [] ->
   inhomogeneous_poisson_thinning lam0 homo wd false Ds = ([MsgBound mu bar], TNone)).
Proof.
  cbv zeta. split.
  - intros Hmu. rewrite thinning_result.
    rewrite (zero_components_state mu bar w gdks homo wd Ds (length homo) (le_n _) Hmu).
    simpl. rewrite firstn_all2 by (rewrite length_combine, length_seq; lia). reflexivity.
  - intros Hmu Hn. destruct homo as [| p homo']; [contradiction Hn; reflexivity |].
    assert (Hv : value (mkLam mu (GaussianMixtureDiffusionKernel 0 w gdks) bar) (time p) [] (loc p) []
                 = Some mu) by reflexivity.
    rewrite (thin_violation _ (p :: homo') wd false Ds 0 p mu eq_refl eq_refl Hv Hmu).
    reflexivity.
Qed.

Lemma zero_component_mixture_thins_independently_witness :
  1 <= 1 /\
  inhomogeneous_poisson_thinning (mkLam 1 (GaussianMixtureDiffusionKernel 0 [] []) 1)
    [p_mid; p_mid] 3 false (fun i => INR i) =
  ([], TSome (map snd (filter (fun ip => if Rle_dec (INR (fst ip) * 1) 1 then true else false)
                         (combine (seq 0 (length [p_mid; p_mid])) [p_mid; p_mid])))).
Proof.
  split; [lra |].
  exact (proj1 (zero_component_mixture_thins_independently 1 1 [] [] [p_mid; p_mid] 3
                  (fun i => INR i)) ltac:(lra)).
Defined.

(** ** [plot_3d_pointprocess_lam_f] *)

Lemma filter_none {A : Type} (f : A -> bool) (l : list A) :
  Forall (fun x => f x = false) l -> filter f l = [].
Proof. induction 1 as [| x l Hx _ IH]; simpl; [reflexivity | rewrite Hx; exact IH]. Qed.

Lemma Rltb_false a b : b <= a -> Rltb a b = false.
Proof. intros H. unfold Rltb. destruct (Rlt_dec a b); [lra | reflexivity]. Qed.

Lemma Rltb_true a b : Rltb a b = true -> a < b.
Proof. unfold Rltb. destruct (Rlt_dec a b); [auto | discriminate]. Qed.

(** Rows whose time is not strictly between 0 and [plot_ts], such as the
    zero rows [generate] pads a sequence with, do not affect the plotted
    values: appending them to [points] leaves the result unchanged. *)
Theorem plot_ignores_rows_outside_window points extra lam plot_ts T S ngrid :
  Forall (fun p => time p <= 0 \/ plot_ts <= time p) extra ->
  plot_3d_pointprocess_lam_f (points ++ extra) lam plot_ts T S ngrid =
  plot_3d_pointprocess_lam_f points lam plot_ts T S ngrid.
Proof.
  intros He. unfold plot_3d_pointprocess_lam_f. rewrite filter_app.
  rewrite (filter_none _ extra), app_nil_r; [reflexivity |].
  eapply Forall_impl; [| exact He]. intros p [Hp | Hp].
  - rewrite (Rltb_false 0 (time p) Hp). destruct (Rltb (time p) plot_ts); reflexivity.
  - rewrite (Rltb_false (time p) plot_ts Hp). reflexivity.
Qed.

Lemma plot_ignores_rows_outside_window_witness :
  Forall (fun p => time p <= 0 \/ 1 <= time p) (repeat [0; 0; 0] 2) /\
  plot_3d_pointprocess_lam_f ([[/2; 0; 0]] ++ repeat [0; 0; 0] 2) lam_flat 1 (0, 1)
    [(0, 1); (0, 1)] 2 =
  plot_3d_pointprocess_lam_f [[/2; 0; 0]] lam_flat 1 (0, 1) [(0, 1); (0, 1)] 2.
Proof.
  assert (H : Forall (fun p => time p <= 0 \/ 1 <= time p) (repeat [0; 0; 0] 2)).
  { repeat constructor; left; unfold time; simpl; lra. }
  split; [exact H | exact (plot_ignores_rows_outside_window _ _ _ _ _ _ _ H)].
Defined.

Lemma linspace_length a b n : length (linspace a b n) = n.
Proof. destruct n as [| [| n]]; simpl; [reflexivity | reflexivity |]. rewrite length_map, length_seq. reflexivity. Qed.

Lemma flat_map_cons_length (l : list R) (P : list (list R)) :
  length (flat_map (fun x => map (cons x) P) l) = (length l * length P)%nat.
Proof. induction l as [| x l IH]; simpl; [reflexivity |]. rewrite length_app, length_map, IH. reflexivity. Qed.

Lemma product_length ls : length (product ls) = fold_right Nat.mul 1%nat (map (@length R) ls).
Proof. induction ls as [| l ls IH]; simpl; [reflexivity |]. rewrite flat_map_cons_length, IH. reflexivity. Qed.

Lemma list_prod_length {A B : Type} (l : list A) (l' : list B) :
  length (list_prod l l') = (length l * length l')%nat.
Proof. induction l as [| x l IH]; simpl; [reflexivity |]. rewrite length_app, length_map, IH. reflexivity. Qed.

Lemma map_opt_length {A B : Type} (f : A -> option B) l ys :
  map_opt f l = Some ys -> length ys = length l.
Proof.
  revert ys. induction l as [| x l IH]; simpl; intros ys H.
  - injection H as <-. reflexivity.
  - destruct (f x), (map_opt f l) as [ys' |] eqn:E; try discriminate H.
    injection H as <-. simpl. rewrite (IH _ eq_refl). reflexivity.
Qed.

Lemma map_opt_const {A B : Type} (f : A -> option B) l c :
  (forall x, In x l -> f x = Some c) -> map_opt f l = Some (repeat c (length l)).
Proof.
  induction l as [| x l IH]; simpl; intros H; [reflexivity |].
  rewrite (H x (or_introl eq_refl)), IH by (intros y Hy; apply H; right; exact Hy).
  reflexivity.
Qed.

Lemma sum_repeat c n : fold_right Rplus 0 (repeat c n) = INR n * c.
Proof. induction n as [| n IH]; [simpl; ring |]. rewrite S_INR. simpl. rewrite IH. ring. Qed.

Lemma map_repeat {A B : Type} (f : A -> B) (x : A) n : map f (repeat x n) = repeat (f x) n.
Proof. induction n as [| n IH]; simpl; [reflexivity | rewrite IH; reflexivity]. Qed.

(** With [ngrid >= 2], [S = [S1; S2]] and every point's time [<= 0] or
    [>= plot_ts], the function returns [ngrid * ngrid] copies of [mu] as
    the intensity image and [ngrid * ngrid] copies of [mu * exp(-I)] as
    [f], where [I = mu * plot_ts * (width S1 * width S2) * ngrid^2 / (ngrid - 1)^2].
    This [I] is [(ngrid / (ngrid - 1))^2] times [mu * plot_ts * |S|], the
    true integral of the constant intensity. *)
Theorem plot_constant_intensity_integral points lam plot_ts T S1 S2 ngrid :
  (2 <= ngrid)%nat ->
  Forall (fun p => time p <= 0 \/ plot_ts <= time p) points ->
  let n := INR ngrid in
  let I := lam_mu lam * plot_ts * ((snd S1 - fst S1) * (snd S2 - fst S2)) * (n ^ 2 / (n - 1) ^ 2) in
  plot_3d_pointprocess_lam_f points lam plot_ts T [S1; S2] ngrid =
  Some (repeat (lam_mu lam) (ngrid * ngrid), repeat (lam_mu lam * exp (- I)) (ngrid * ngrid)).
Proof.
  intros Hn Hp n I. unfold plot_3d_pointprocess_lam_f.
  rewrite (filter_none _ points).
  2:{ eapply Forall_impl; [| exact Hp]. intros p [Hq | Hq].
      - rewrite (Rltb_false 0 (time p) Hq). destruct (Rltb (time p) plot_ts); reflexivity.
      - rewrite (Rltb_false (time p) plot_ts Hq). reflexivity. }
  cbv zeta.
  set (ss := product (map (fun S_k => linspace (fst S_k) (snd S_k) ngrid) [S1; S2])).
  assert (Hss : length ss = (ngrid * ngrid)%nat).
  { unfold ss. rewrite product_length. simpl. rewrite !linspace_length. lia. }
  rewrite (map_opt_const _ ss (lam_mu lam)) by (intros; reflexivity).
  rewrite (map_opt_const _ (list_prod _ ss) (lam_mu lam)) by (intros; reflexivity).
  rewrite repeat_length, Hss, Nat.eqb_refl. simpl nth_error. cbv iota.
  rewrite list_prod_length, Hss, map_repeat. f_equal. f_equal. f_equal.
  rewrite sum_repeat. simpl last. rewrite length_tl, linspace_length.
  unfold I, n. rewrite !mult_INR, minus_INR by lia. simpl fold_right. simpl INR.
  assert (Hn1 : INR ngrid - 1 <> 0).
  { assert (H2 : INR 2 <= INR ngrid) by (apply le_INR; exact Hn). simpl in H2. lra. }
  do 2 f_equal. field. exact Hn1.
Qed.

Lemma plot_constant_intensity_integral_witness :
  (2 <= 2)%nat /\ Forall (fun p => time p <= 0 \/ 1 <= time p) [[0; 0; 0]] /\
  plot_3d_pointprocess_lam_f [[0; 0; 0]] lam_flat 1 (0, 1) [(0, 1); (0, 1)] 2 =
  Some (repeat 1 4, repeat (1 * exp (- (1 * 1 * ((1 - 0) * (1 - 0)) * (INR 2 ^ 2 / (INR 2 - 1) ^ 2)))) 4).
Proof.
  assert (H : Forall (fun p => time p <= 0 \/ 1 <= time p) [[0; 0; 0]]).
  { constructor; [left; unfold time; simpl; lra | constructor]. }
  split; [apply le_n | split; [exact H |]].
  exact (plot_constant_intensity_integral [[0; 0; 0]] lam_flat 1 (0, 1) (0, 1) (0, 1) 2
           ltac:(lia) H).
Defined.

Lemma product_linspace_length (S : list (R * R)) ngrid :
  length (product (map (fun S_k => linspace (fst S_k) (snd S_k) ngrid) S)) = (ngrid ^ length S)%nat.
Proof.
  rewrite product_length. induction S as [| S_k S IH]; simpl; [reflexivity |].
  rewrite linspace_length, IH. reflexivity.
Qed.

(** The grid has [ngrid ^ len(S)] points, and the images are reshaped to
    [(ngrid, ngrid)]: for [ngrid >= 2] the function raises unless [S] has
    exactly two intervals. *)
Theorem plot_requires_two_spatial_dims points lam plot_ts T S ngrid :
  (2 <= ngrid)%nat -> length S <> 2%nat ->
  plot_3d_pointprocess_lam_f points lam plot_ts T S ngrid = None.
Proof.
  intros Hn HS. unfold plot_3d_pointprocess_lam_f. cbv zeta.
  destruct (map_opt _ (product _)) as [evals |] eqn:E1; [| reflexivity].
  destruct (map_opt _ (list_prod _ _)) as [lamvals |]; [| reflexivity].
  destruct (Nat.eqb (length evals) (ngrid * ngrid)) eqn:E; [| reflexivity].
  exfalso. apply Nat.eqb_eq in E.
  rewrite (map_opt_length _ _ _ E1), product_linspace_length in E.
  apply HS. apply (Nat.pow_inj_r ngrid); [lia |]. rewrite E. simpl. lia.
Qed.

Lemma plot_requires_two_spatial_dims_witness :
  (2 <= 2)%nat /\ length [(0, 1)] <> 2%nat /\
  plot_3d_pointprocess_lam_f [] lam_flat 1 (0, 1) [(0, 1)] 2 = None.
Proof.
  split; [apply le_n | split; [discriminate |]].
  exact (plot_requires_two_spatial_dims [] lam_flat 1 (0, 1) [(0, 1)] 2 ltac:(lia)
           ltac:(discriminate)).
Defined.

Lemma nu_values_nonneg (k : Kernel) (t : R) (s his_t : list R) (his_s : list (list R))
  (v : NpVal) :
  kernel_valid k ->
  (forall ht, In ht his_t -> 0 < t - ht) ->
  nu k t s his_t his_s = Some v ->
  forall j, 0 <= np_at v j.
Proof.
  intros Hk Hdt H j.
  assert (Hd : forall ds, kernel_deltas t s his_t his_s = Some ds ->
                 forall d, In d ds -> 0 < d_t d).
  { intros ds E d Hin. destruct (kernel_deltas_dt _ _ _ _ _ E d Hin) as (ht & Hht & ->).
    apply Hdt, Hht. }
  assert (Hvec : forall f, (forall ds, kernel_deltas t s his_t his_s = Some ds ->
                              forall d, In d ds -> 0 <= f d) ->
                 vectorised f t s his_t his_s = Some v -> 0 <= np_at v j).
  { intros f Hf Hv. unfold vectorised in Hv.
    destruct (kernel_deltas t s his_t his_s) as [ds |] eqn:E; [| discriminate].
    injection Hv as <-. simpl. apply nth_map_nonneg. apply Hf. reflexivity. }
  destruct k as [p | g | K w gdks | g | K w gdks]; simpl in Hk, H.
  - apply (Hvec (std_val p)); [| exact H]. intros ds E d Hin.
    destruct Hk as (? & ? & ?). apply std_val_nonneg; try assumption. apply (Hd ds E d Hin).
  - apply (Hvec (gauss_val g)); [| exact H]. intros ds E d Hin.
    destruct Hk as (? & ? & ? & ?). apply gaussian_formula_nonneg; try assumption.
    apply (Hd ds E d Hin).
  - destruct Hk as [Hg Hw].
    apply (mixture_nonneg gauss_valid gauss_val t s his_t his_s w gdks K v Hg Hw); [| exact H].
    intros g ds (? & ? & ? & ?) E d Hin. apply gaussian_formula_nonneg; try assumption.
    apply (Hd ds E d Hin).
  - apply (Hvec (sv_val g)); [| exact H]. intros ds E d Hin.
    destruct Hk as [HC Hf]. destruct (Hf (h_x d) (h_y d)) as (? & ? & ?).
    apply gaussian_formula_nonneg; try assumption. apply (Hd ds E d Hin).
  - destruct Hk as [Hg Hw].
    apply (mixture_nonneg sv_valid sv_val t s his_t his_s w gdks K v Hg Hw); [| exact H].
    intros g ds [HC Hf] E d Hin. destruct (Hf (h_x d) (h_y d)) as (? & ? & ?).
    apply gaussian_formula_nonneg; try assumption. apply (Hd ds E d Hin).
Qed.

Lemma np_sum_nonneg v : (forall j, 0 <= np_at v j) -> 0 <= np_sum v.
Proof.
  destruct v as [a | l]; simpl; intros H; [exact (H 0%nat) |].
  induction l as [| x l IH]; simpl; [lra |].
  pose proof (H 0%nat) as H0. simpl in H0.
  assert (0 <= fold_right Rplus 0 l); [| lra].
  apply IH. intros j. exact (H (S j)).
Qed.

Lemma value_nonneg lam t ht s hs v :
  kernel_valid (lam_kernel lam) -> 0 <= lam_mu lam ->
  (forall h, In h ht -> 0 < t - h) ->
  value lam t ht s hs = Some v -> 0 <= v.
Proof.
  intros Hk Hmu Hdt. unfold value. destruct (Nat.ltb 0 (length ht)).
  - destruct (nu (lam_kernel lam) t s ht hs) as [w |] eqn:E; [| discriminate].
    intros H. injection H as <-.
    pose proof (np_sum_nonneg w (nu_values_nonneg _ _ _ _ _ _ Hk Hdt E)). lra.
  - intros H. injection H as <-. exact Hmu.
Qed.

Lemma map_opt_Forall {A B : Type} (f : A -> option B) (Q : B -> Prop) l ys :
  (forall x y, In x l -> f x = Some y -> Q y) -> map_opt f l = Some ys -> Forall Q ys.
Proof.
  revert ys. induction l as [| x l IH]; simpl; intros ys Hf H.
  - injection H as <-. constructor.
  - destruct (f x) as [y |] eqn:Ex; [| discriminate].
    destruct (map_opt f l) as [ys' |] eqn:E; [| discriminate].
    injection H as <-. constructor.
    + exact (Hf x y (or_introl eq_refl) Ex).
    + apply IH; [| reflexivity]. intros x' y' Hx'. apply Hf. right. exact Hx'.
Qed.

Lemma sum_nonneg_list l : Forall (Rle 0) l -> 0 <= fold_right Rplus 0 l.
Proof. induction 1 as [| x l Hx _ IH]; simpl; lra. Qed.

Lemma prod_nonneg_list l : Forall (Rle 0) l -> 0 <= fold_right Rmult 1 l.
Proof. induction 1 as [| x l Hx _ IH]; simpl; [lra | apply Rmult_le_pos; assumption]. Qed.

Lemma filter_StronglySorted {A : Type} (Rel : A -> A -> Prop) (f : A -> bool) l :
  StronglySorted Rel l -> StronglySorted Rel (filter f l).
Proof.
  induction 1 as [| x l _ IH Hx]; simpl; [constructor |].
  destruct (f x); [| exact IH]. constructor; [exact IH |].
  apply Forall_forall. intros y Hy. apply filter_In in Hy.
  exact (proj1 (Forall_forall _ _) Hx y (proj1 Hy)).
Qed.

Lemma last_In_list {A : Type} (l : list A) (d : A) : l <> [] -> In (last l d) l.
Proof.
  induction l as [| x l IH]; intros H; [contradiction H; reflexivity |].
  destruct l as [| y l]; [left; reflexivity |].
  right. apply IH. discriminate.
Qed.

Lemma last_time_max l :
  StronglySorted time_le l -> forall h, In h (map time l) -> h <= last (map time l) 0.
Proof.
  induction 1 as [| p l _ IH Hp]; intros h Hh; [destruct Hh |].
  destruct l as [| q l].
  - destruct Hh as [<- | []]. simpl. lra.
  - change (last (map time (p :: q :: l)) 0) with (last (map time (q :: l)) 0).
    destruct Hh as [<- | Hh]; [| exact (IH h Hh)].
    assert (Hin : In (last (map time (q :: l)) 0) (map time (q :: l)))
      by (apply last_In_list; discriminate).
    apply in_map_iff in Hin. destruct Hin as (r & Hr & Hrin).
    rewrite <- Hr. exact (proj1 (Forall_forall _ _) Hp r Hrin).
Qed.

Lemma linspace_tl_gt a b n t : a < b -> In t (tl (linspace a b n)) -> a < t.
Proof.
  intros Hab Ht. destruct n as [| [| m]]; [destruct Ht | destruct Ht |].
  unfold linspace in Ht. change (seq 0 (S (S m))) with (0%nat :: seq 1 (S m)) in Ht.
  rewrite map_cons in Ht. cbv [tl] in Ht. apply in_map_iff in Ht. destruct Ht as (k & <- & Hk).
  apply in_seq in Hk.
  assert (Hk1 : 1 <= INR k) by (apply (le_INR 1); lia).
  assert (Hpos : 0 < INR (S (S m) - 1)) by (apply lt_0_INR; lia).
  assert (0 < (b - a) / INR (S (S m) - 1)) by (apply Rdiv_lt_0_compat; lra).
  nra.
Qed.

Lemma Forall2_scale (X : R) l :
  0 < X <= 1 -> Forall (Rle 0) l ->
  Forall2 (fun e f => 0 <= f <= e) l (map (fun e => e * X) l).
Proof.
  intros HX. induction 1 as [| e l He _ IH]; simpl; constructor; [| exact IH].
  split; nra.
Qed.

Lemma exp_neg_le_1 x : 0 <= x -> 0 < exp (- x) <= 1.
Proof.
  intros Hx. split; [apply exp_pos |]. rewrite <- exp_0.
  destruct (Req_dec x 0) as [-> | Hne]; [rewrite Ropp_0; lra |].
  left. apply exp_increasing. lra.
Qed.

(** With valid kernel parameters, [mu >= 0], [ngrid >= 2], [plot_ts >= 0],
    every interval of [S] ordered and [points] sorted by time (as
    [generate] returns them), the two images drawn satisfy
    [0 <= f <= lambda] at every grid point. *)
Theorem plot_density_below_intensity points lam plot_ts T S ngrid evals fvals :
  kernel_valid (lam_kernel lam) -> 0 <= lam_mu lam -> (2 <= ngrid)%nat -> 0 <= plot_ts ->
  Forall (fun S_k => fst S_k <= snd S_k) S -> Sorted time_le points ->
  plot_3d_pointprocess_lam_f points lam plot_ts T S ngrid = Some (evals, fvals) ->
  Forall2 (fun e f => 0 <= f <= e) evals fvals.
Proof.
  intros Hk Hmu Hn Hts HS Hsort. unfold plot_3d_pointprocess_lam_f. cbv zeta.
  set (his_p := filter (fun p => andb (Rltb (time p) plot_ts) (Rltb 0 (time p))) points).
  set (ss := product (map (fun S_k => linspace (fst S_k) (snd S_k) ngrid) S)).
  assert (Hwin : forall h, In h (map time his_p) -> 0 < h < plot_ts).
  { intros h Hh. apply in_map_iff in Hh. destruct Hh as (p & <- & Hp).
    apply filter_In in Hp. destruct Hp as [_ Hp]. apply andb_prop in Hp.
    destruct Hp as [H1 H2]. split; [exact (Rltb_true _ _ H2) | exact (Rltb_true _ _ H1)]. }
  assert (Hmax : forall h, In h (map time his_p) -> h <= last (map time his_p) 0).
  { apply last_time_max. apply filter_StronglySorted.
    apply Sorted_StronglySorted; [intros a b c; unfold time_le; lra | exact Hsort]. }
  assert (Hlast : last (map time his_p) 0 <= plot_ts /\
                  (map time his_p <> [] -> last (map time his_p) 0 < plot_ts)).
  { destruct (map time his_p) as [| h l] eqn:E.
    - split; [simpl; exact Hts | intros C; contradiction C; reflexivity].
    - assert (Hin : In (last (h :: l) 0) (h :: l)) by (apply last_In_list; discriminate).
      pose proof (Hwin _ Hin). split; [lra | intros _; lra]. }
  set (last_t := last (map time his_p) 0) in *.
  destruct (map_opt (fun s => value lam plot_ts (map time his_p) s (map loc his_p)) ss)
    as [evals' |] eqn:E1; [| discriminate].
  destruct (map_opt (fun ts_ => value lam (fst ts_) (map time his_p) (snd ts_) (map loc his_p))
              (list_prod (tl (linspace last_t plot_ts ngrid)) ss)) as [lamvals |] eqn:E2;
    [| discriminate].
  destruct (Nat.eqb (length evals') (ngrid * ngrid)); [| discriminate].
  destruct (nth_error S 0), (nth_error S 1); try discriminate.
  intros H. injection H as <- <-.
  assert (Hev : Forall (Rle 0) evals').
  { eapply map_opt_Forall; [| exact E1]. intros s y _ Hy.
    eapply (value_nonneg _ _ _ _ _ _ Hk Hmu); [| exact Hy].
    intros h Hh. pose proof (Hwin h Hh). lra. }
  assert (Hlv : Forall (Rle 0) lamvals).
  { eapply map_opt_Forall; [| exact E2]. intros [t s] y Hx Hy.
    eapply (value_nonneg _ _ _ _ _ _ Hk Hmu); [| exact Hy].
    intros h Hh. apply in_prod_iff in Hx. destruct Hx as [Ht _]. simpl fst in Ht.
    assert (Hlt : last_t < plot_ts) by (apply (proj2 Hlast); intros C; rewrite C in Hh; destruct Hh).
    pose proof (linspace_tl_gt _ _ _ _ Hlt Ht). pose proof (Hmax h Hh). simpl fst. lra. }
  apply Forall2_scale; [| exact Hev]. apply exp_neg_le_1.
  apply Rmult_le_pos; [exact (sum_nonneg_list _ Hlv) |].
  unfold Rdiv. apply Rmult_le_pos.
  - simpl fold_right. apply Rmult_le_pos; [lra | apply prod_nonneg_list].
    apply Forall_map. eapply Forall_impl; [| exact HS]. intros S_k HSk. lra.
  - left. apply Rinv_0_lt_compat.
    assert (H2 : INR 2 <= INR ngrid) by (apply le_INR; exact Hn). simpl in H2.
    repeat apply Rmult_lt_0_compat; lra.
Qed.

Lemma plot_density_below_intensity_witness :
  exists evals fvals,
  kernel_valid (lam_kernel lam_flat) /\ 0 <= lam_mu lam_flat /\ (2 <= 2)%nat /\ 0 <= 1 /\
  Forall (fun S_k => fst S_k <= snd S_k) [(0, 1); (0, 1)] /\ Sorted time_le [[/2; 0; 0]] /\
  plot_3d_pointprocess_lam_f [[/2; 0; 0]] lam_flat 1 (0, 1) [(0, 1); (0, 1)] 2 = Some (evals, fvals) /\
  Forall2 (fun e f => 0 <= f <= e) evals fvals.
Proof.
  assert (Hk : kernel_valid (lam_kernel lam_flat)) by (simpl; lra).
  assert (Hmu : 0 <= lam_mu lam_flat) by (simpl; lra).
  assert (HS : Forall (fun S_k => fst S_k <= snd S_k) [(0, 1); (0, 1)])
    by (repeat constructor; simpl; lra).
  assert (Hs : Sorted time_le [[/2; 0; 0]]) by (repeat constructor).
  assert (Hp : exists evals fvals,
            plot_3d_pointprocess_lam_f [[/2; 0; 0]] lam_flat 1 (0, 1) [(0, 1); (0, 1)] 2 =
            Some (evals, fvals)).
  { unfold plot_3d_pointprocess_lam_f, Rltb. simpl. decide_R. do 2 eexists. reflexivity. }
  destruct Hp as (evals & fvals & Hp).
  exists evals, fvals.
  refine (conj Hk (conj Hmu (conj (le_n 2) (conj _ (conj HS (conj Hs (conj Hp _))))))); [lra |].
  exact (plot_density_below_intensity [[/2; 0; 0]] lam_flat 1 (0, 1) [(0, 1); (0, 1)] 2 evals fvals
           Hk Hmu (le_n 2) ltac:(lra) HS Hs Hp).
Defined.

(** ** Events of the batch returned by [generate] *)

Lemma subseq_In {A : Type} (l1 l2 : list A) x : subseq l1 l2 -> In x l1 -> In x l2.
Proof.
  induction 1 as [| y l1 l2 _ IH | y l1 l2 _ IH]; intros Hx.
  - exact Hx.
  - destruct Hx as [<- | Hx]; [left; reflexivity | right; exact (IH Hx)].
  - right. exact (IH Hx).
Qed.

Lemma thin_result_subseq lam homo w verbose Ds lg pts :
  inhomogeneous_poisson_thinning lam homo w verbose Ds = (lg, TSome pts) -> subseq pts homo.
Proof.
  rewrite thinning_result. destruct (status _); intros H; try discriminate H.
  injection H as _ <-.
  pose proof (thin_retained_subseq lam homo w verbose Ds (length homo)) as Hs.
  rewrite firstn_all in Hs. exact Hs.
Qed.

Lemma homo_point_in_box T S a :
  (forall i j, 0 <= a_U a i j <= 1) ->
  Forall (fun iv => fst iv <= snd iv) (T :: S) ->
  forall p, In p (homogeneous_poisson_sampling T S a) ->
  forall i, (i < length (T :: S))%nat ->
  fst (nth i (T :: S) (0, 0)) <= nth i p 0 <= snd (nth i (T :: S) (0, 0)).
Proof.
  intros HU HS p Hin i Hi.
  apply (Permutation_in _ (sort_by_time_perm _)) in Hin.
  apply in_map_iff in Hin. destruct Hin as (j & <- & _).
  rewrite nth_map_seq by exact Hi. cbv zeta. unfold uniform.
  assert (Hiv : fst (nth i (T :: S) (0, 0)) <= snd (nth i (T :: S) (0, 0))).
  { rewrite Forall_forall in HS. apply HS, nth_In, Hi. }
  specialize (HU i j). nra.
Qed.

(** Every size returned by a successful [generate] is at least
    [min_n_points]. When, in addition, the variates lie in [0,1], the
    intervals of [[T] + S] are ordered and [S] has two intervals, each of
    the first [sizes[b]] rows of [data[b]] has its time in [T] and its
    location in [S]. *)
Theorem generate_events_in_domain lam T S batch_size min_n_points verbose att fuel lg data sizes :
  generate lam T S batch_size min_n_points verbose att fuel = (lg, GOk data sizes) ->
  Forall (fun n => (min_n_points <= n)%nat) sizes /\
  ((forall k i j, 0 <= a_U (att k) i j <= 1) ->
   Forall (fun iv => fst iv <= snd iv) (T :: S) -> length S = 2%nat ->
   forall b d j i, nth_error data b = Some d -> (j < nth b sizes 0)%nat -> (i < 3)%nat ->
     fst (nth i (T :: S) (0, 0)) <= nth i (nth j d []) 0 <= snd (nth i (T :: S) (0, 0))).
Proof.
  intros H. destruct (generate_ok_inv _ _ _ _ _ _ _ _ _ _ _ H) as (pl & Hpk & Hs & Hl & Hf).
  split.
  - rewrite Hs. apply Forall_map. eapply Forall_impl; [| exact Hf].
    intros pts (k & lg' & _ & Hm). exact Hm.
  - intros HU HS H2 b d j i Hd Hj Hi.
    pose proof (pack_Forall2 _ _ _ _ Hpk) as F2.
    destruct (Forall2_nth_error_r _ _ _ _ _ F2 Hd) as (pts & Hpts & Ha).
    assert (Hnb : nth b sizes 0%nat = length pts).
    { apply nth_error_nth. rewrite Hs, nth_error_map, Hpts. reflexivity. }
    rewrite Hnb in Hj.
    unfold assign_seq in Ha. simpl length in Ha. rewrite H2 in Ha. simpl in Ha.
    injection Ha as <-. rewrite app_nth1 by exact Hj.
    rewrite Forall_forall in Hf. destruct (Hf pts (nth_error_In _ _ Hpts)) as (k & lg' & Ht & _).
    unfold attempt_thin in Ht. apply thin_result_subseq in Ht.
    apply (homo_point_in_box T S (att k) (HU k) HS).
    + apply (subseq_In _ _ _ Ht). apply nth_In, Hj.
    + simpl. rewrite H2. exact Hi.
Qed.

Lemma generate_events_in_domain_witness :
  generate lam_const (0, 1) [(0, 1); (0, 1)] 1 1 false att_tie 5 =
    ([MsgSequence 1], GOk [[p_mid; p_mid]] [2%nat]) /\
  Forall (fun n => (1 <= n)%nat) [2%nat] /\
  (forall k i j, 0 <= a_U (att_tie k) i j <= 1) /\
  Forall (fun iv => fst iv <= snd iv) [(0, 1); (0, 1); (0, 1)] /\
  fst (nth 1 [(0, 1); (0, 1); (0, 1)] (0, 0)) <= nth 1 (nth 1 [p_mid; p_mid] []) 0 <=
    snd (nth 1 [(0, 1); (0, 1); (0, 1)] (0, 0)).
Proof.
  assert (HU : forall k i j, 0 <= a_U (att_tie k) i j <= 1).
  { intros k i j. unfold att_tie. simpl. lra. }
  assert (HS : Forall (fun iv => fst iv <= snd iv) [(0, 1); (0, 1); (0, 1)])
    by (repeat constructor; simpl; lra).
  pose proof (generate_events_in_domain lam_const (0, 1) [(0, 1); (0, 1)] 1 1 false att_tie 5
                _ _ _ generate_tie) as [Hsz Hdom].
  split; [exact generate_tie | split; [exact Hsz | split; [exact HU | split; [exact HS |]]]].
  exact (Hdom HU HS eq_refl 0%nat [p_mid; p_mid] 1%nat 1%nat eq_refl ltac:(simpl; lia)
           ltac:(lia)).
Defined.
